(** * The U-Net segmentation notebook: network, slice driver, persistence

    A shallow embedding of [Segmentation hands-on.ipynb]:
    - the [UNet] class ([__init__], [unet_block], [forward]) over the shape
      rules and the values of the [torch.nn] modules it uses;
    - the slice normalisation of the training cell in IEEE arithmetic;
    - the training loop over an abstract optimiser state;
    - the arg-max mask, the reconstruction of the label volume and the
      NIfTI save cell.

    Integers of the notebook are [Z].  A tensor or array is its shape
    together with its element at each index.  The network is written over an
    interface of scalar operations, so that what is proved about shapes holds
    for any arithmetic.  The interface has two instances: the single
    precision IEEE arithmetic in which the network computes, and exact real
    arithmetic, the idealisation in which the output activation is a
    probability distribution.  NumPy's floats are [spec_float]: doubles for
    the loaded volume, singles for the normalised slice and for the tensors. *)

From Stdlib Require Import ZArith List String Lia Reals Lra SpecFloat.
From Stdlib Require Import FunctionalExtensionality.
From stdpp Require Import base option list gmap strings.

Local Open Scope Z_scope.
Set Warnings "-register-all".

(** ** Exceptions and results *)

(** The Python exceptions the modelled calls can raise. *)
Inductive exn : Type :=
| RuntimeError_channels          (* conv / batch norm: wrong number of channels *)
| RuntimeError_kernel_size       (* "Kernel size can't be greater than actual input size" *)
| RuntimeError_output_too_small  (* pooling: "Output size is too small" *)
| ValueError_single_value        (* "Expected more than 1 value per channel when training" *)
| RuntimeError_cat_sizes         (* "Sizes of tensors must match except in dimension 1" *)
| IndexError_dim                 (* "Dimension out of range" *)
| IndexError_index               (* NumPy: index out of bounds for axis *)
| ValueError_zero_size           (* NumPy: zero-size array to reduction operation *)
| ValueError_broadcast           (* NumPy: could not broadcast input array *)
| NameError                      (* a name read before it is bound *)
| FileNotFoundError.

Inductive result (A : Type) : Type :=
| Ok (a : A)
| Raise (e : exn).
Arguments Ok {A} a.
Arguments Raise {A} e.

#[global] Instance result_ret : MRet result := fun A a => Ok a.
#[global] Instance result_bind : MBind result :=
  fun A B f m => match m with Ok a => f a | Raise e => Raise e end.
#[global] Instance result_fmap : FMap result :=
  fun A B f m => match m with Ok a => Ok (f a) | Raise e => Raise e end.

(** ** torch.Size of a 4D tensor (batch, channels, height, width) *)

Record Size : Type := mkSize { batch : Z; channels : Z; height : Z; width : Z }.

(** ** torch.nn modules used by the notebook *)

Inductive module : Type :=
| Conv2d (in_channels out_channels kernel_size padding : Z) (bias : bool)
| BatchNorm2d (num_features : Z)
| ReLU
| MaxPool2d (kernel_size stride : Z)
| ConvTranspose2d (in_channels out_channels kernel_size stride : Z)
| Softmax (dim : Z)
| Sequential (children : list (string * module)).

(** [UNet.unet_block]: two 3x3 convolutions with padding 1 and no bias, each
    followed by a batch normalisation and a ReLU, in an ordered dictionary. *)
Definition unet_block (in_channels features : Z) (name : string) : module :=
  Sequential
    [ (name +:+ "conv1", Conv2d in_channels features 3 1 false);
      (name +:+ "norm1", BatchNorm2d features);
      (name +:+ "relu1", ReLU);
      (name +:+ "conv2", Conv2d features features 3 1 false);
      (name +:+ "norm2", BatchNorm2d features);
      (name +:+ "relu2", ReLU) ].

(** The attributes [UNet.__init__] sets, in the order it sets them. *)
Record UNet : Type := mkUNet {
  encoder1 : module; pool1 : module;
  encoder2 : module; pool2 : module;
  encoder3 : module; pool3 : module;
  encoder4 : module; pool4 : module;
  bottleneck : module;
  upconv4 : module; decoder4 : module;
  upconv3 : module; decoder3 : module;
  upconv2 : module; decoder2 : module;
  upconv1 : module; decoder1 : module;
  conv : module;
  softmax : module
}.

(** [UNet.__init__(self, in_channels=1, out_channels=1, init_features=32)];
    an argument the caller leaves out is [None] and takes its default.  The
    modules' constructors raise on a negative channel count; the network is
    built here for non-negative arguments, and the properties of the
    constructor are stated for them. *)
Definition UNet_init (in_channels out_channels init_features : option Z) : UNet :=
  let in_channels := default 1 in_channels in
  let out_channels := default 1 out_channels in
  let init_features := default 32 init_features in
  let features := init_features in
  {| encoder1 := unet_block in_channels features "enc1";
     pool1 := MaxPool2d 2 2;
     encoder2 := unet_block features (features * 2) "enc2";
     pool2 := MaxPool2d 2 2;
     encoder3 := unet_block (features * 2) (features * 4) "enc3";
     pool3 := MaxPool2d 2 2;
     encoder4 := unet_block (features * 4) (features * 8) "enc4";
     pool4 := MaxPool2d 2 2;
     bottleneck := unet_block (features * 8) (features * 16) "bottleneck";
     upconv4 := ConvTranspose2d (features * 16) (features * 8) 2 2;
     decoder4 := unet_block ((features * 8) * 2) (features * 8) "dec4";
     upconv3 := ConvTranspose2d (features * 8) (features * 4) 2 2;
     decoder3 := unet_block ((features * 4) * 2) (features * 4) "dec3";
     upconv2 := ConvTranspose2d (features * 4) (features * 2) 2 2;
     decoder2 := unet_block ((features * 2) * 2) (features * 2) "dec2";
     upconv1 := ConvTranspose2d (features * 2) features 2 2;
     decoder1 := unet_block (features * 2) features "dec1";
     conv := Conv2d features out_channels 1 0 true;
     softmax := Softmax 1 |}.

(** The notebook's instance: [unet = UNet(1, 2)]. *)
Definition unet : UNet := UNet_init (Some 1) (Some 2) None.

(** ** Trainable parameters *)

(** [named_parameters]: the weight tensors a module registers, with their
    shapes.  Batch-norm running statistics are buffers, not parameters. *)
Fixpoint named_parameters (prefix : string) (m : module) : list (string * list Z) :=
  match m with
  | Conv2d cin cout k _ bias =>
      (prefix +:+ ".weight", [cout; cin; k; k]) ::
      (if bias then [(prefix +:+ ".bias", [cout])] else [])
  | BatchNorm2d nf =>
      [(prefix +:+ ".weight", [nf]); (prefix +:+ ".bias", [nf])]
  | ConvTranspose2d cin cout k _ =>
      [(prefix +:+ ".weight", [cin; cout; k; k]); (prefix +:+ ".bias", [cout])]
  | ReLU | MaxPool2d _ _ | Softmax _ => []
  | Sequential children =>
      (fix go (cs : list (string * module)) : list (string * list Z) :=
         match cs with
         | [] => []
         | (name, c) :: cs' => named_parameters (prefix +:+ "." +:+ name) c ++ go cs'
         end) children
  end.

(** The registered sub-modules of the network, in registration order. *)
Definition UNet_children (self : UNet) : list (string * module) :=
  [ ("encoder1", encoder1 self); ("pool1", pool1 self);
    ("encoder2", encoder2 self); ("pool2", pool2 self);
    ("encoder3", encoder3 self); ("pool3", pool3 self);
    ("encoder4", encoder4 self); ("pool4", pool4 self);
    ("bottleneck", bottleneck self);
    ("upconv4", upconv4 self); ("decoder4", decoder4 self);
    ("upconv3", upconv3 self); ("decoder3", decoder3 self);
    ("upconv2", upconv2 self); ("decoder2", decoder2 self);
    ("upconv1", upconv1 self); ("decoder1", decoder1 self);
    ("conv", conv self); ("softmax", softmax self) ].

Definition UNet_parameters (self : UNet) : list (string * list Z) :=
  flat_map (fun '(name, m) => named_parameters name m) (UNet_children self).

(** [p.numel()]: the number of elements of a tensor of the given shape. *)
Definition numel (shape : list Z) : Z := fold_right Z.mul 1 shape.

(** [sum(p.numel() for p in unet.parameters() if p.requires_grad)]; every
    parameter of a freshly built module requires a gradient. *)
Definition count_parameters (self : UNet) : Z :=
  fold_right Z.add 0 (map (fun p => numel (snd p)) (UNet_parameters self)).

(** ** Shape rules of the modules *)

(** Output extent of a stride-1 convolution along one axis. *)
Definition conv_out (extent k p : Z) : Z := (extent + 2 * p - (k - 1) - 1) / 1 + 1.

(** Output extent of an unpadded pooling window along one axis (floor mode). *)
Definition pool_out (extent k s : Z) : Z := (extent - (k - 1) - 1) / s + 1.

(** Output extent of an unpadded transposed convolution along one axis. *)
Definition convT_out (extent k s : Z) : Z := (extent - 1) * s + (k - 1) + 1.

(** The size a module returns on an input of size [x], or the exception it
    raises.  [training] is the module's [self.training] flag. *)
Fixpoint module_size (training : bool) (m : module) (x : Size) : result Size :=
  match m with
  | Conv2d cin cout k p _ =>
      if negb (channels x =? cin) then Raise RuntimeError_channels
      else if (height x + 2 * p <? k) || (width x + 2 * p <? k)
           then Raise RuntimeError_kernel_size
      else Ok (mkSize (batch x) cout (conv_out (height x) k p) (conv_out (width x) k p))
  | BatchNorm2d nf =>
      if training && (batch x * height x * width x =? 1)
      then Raise ValueError_single_value
      else if negb (channels x =? nf) then Raise RuntimeError_channels
      else Ok x
  | ReLU => Ok x
  | MaxPool2d k s =>
      let h := pool_out (height x) k s in
      let w := pool_out (width x) k s in
      if (h <? 1) || (w <? 1) then Raise RuntimeError_output_too_small
      else Ok (mkSize (batch x) (channels x) h w)
  | ConvTranspose2d cin cout k s =>
      if negb (channels x =? cin) then Raise RuntimeError_channels
      else Ok (mkSize (batch x) cout (convT_out (height x) k s) (convT_out (width x) k s))
  | Softmax dim =>
      if (dim <? -4) || (3 <? dim) then Raise IndexError_dim else Ok x
  | Sequential children =>
      (fix go (cs : list (string * module)) (x : Size) : result Size :=
         match cs with
         | [] => Ok x
         | (_, c) :: cs' => x' ← module_size training c x; go cs' x'
         end) children x
  end.

(** [torch.cat((a, b), dim=1)]: every extent but the channel one must agree. *)
Definition cat_size (a b : Size) : result Size :=
  if (batch a =? batch b) && (height a =? height b) && (width a =? width b)
  then Ok (mkSize (batch a) (channels a + channels b) (height a) (width a))
  else Raise RuntimeError_cat_sizes.

(** ** UNet.forward *)

Section Forward.
Context {T : Type}.
(** [call name m x] is [self.<name>(x)] for the sub-module [m] registered
    under [name]; [torch_cat a b] is [torch.cat((a, b), dim=1)]. *)
Variable call : string -> module -> T -> result T.
Variable torch_cat : T -> T -> result T.

(** The values [forward] binds.  The source rebinds each [dec_i] three
    times; [up_i] and [cat_i] name its first two values. *)
Record Frame : Type := mkFrame {
  f_enc1 : T; f_enc2 : T; f_enc3 : T; f_enc4 : T;
  f_bottleneck : T;
  f_up4 : T; f_cat4 : T; f_dec4 : T;
  f_up3 : T; f_cat3 : T; f_dec3 : T;
  f_up2 : T; f_cat2 : T; f_dec2 : T;
  f_up1 : T; f_cat1 : T; f_dec1 : T;
  f_out_conv : T;
  f_return : T
}.

Definition UNet_forward_frame (self : UNet) (x : T) : result Frame :=
  enc1 ← call "encoder1" (encoder1 self) x;
  p1 ← call "pool1" (pool1 self) enc1;
  enc2 ← call "encoder2" (encoder2 self) p1;
  p2 ← call "pool2" (pool2 self) enc2;
  enc3 ← call "encoder3" (encoder3 self) p2;
  p3 ← call "pool3" (pool3 self) enc3;
  enc4 ← call "encoder4" (encoder4 self) p3;
  p4 ← call "pool4" (pool4 self) enc4;
  bottleneck ← call "bottleneck" (bottleneck self) p4;
  up4 ← call "upconv4" (upconv4 self) bottleneck;
  cat4 ← torch_cat up4 enc4;
  dec4 ← call "decoder4" (decoder4 self) cat4;
  up3 ← call "upconv3" (upconv3 self) dec4;
  cat3 ← torch_cat up3 enc3;
  dec3 ← call "decoder3" (decoder3 self) cat3;
  up2 ← call "upconv2" (upconv2 self) dec3;
  cat2 ← torch_cat up2 enc2;
  dec2 ← call "decoder2" (decoder2 self) cat2;
  up1 ← call "upconv1" (upconv1 self) dec2;
  cat1 ← torch_cat up1 enc1;
  dec1 ← call "decoder1" (decoder1 self) cat1;
  out_conv ← call "conv" (conv self) dec1;
  r ← call "softmax" (softmax self) out_conv;
  mret (mkFrame enc1 enc2 enc3 enc4 bottleneck up4 cat4 dec4 up3 cat3 dec3
                up2 cat2 dec2 up1 cat1 dec1 out_conv r).

Definition UNet_forward (self : UNet) (x : T) : result T :=
  f_return <$> UNet_forward_frame self x.

End Forward.

Arguments Frame T : clear implicits.

(** The forward pass on sizes alone. *)
Definition forward_size (training : bool) (self : UNet) (x : Size) : result Size :=
  UNet_forward (fun _ => module_size training) cat_size self x.

Definition forward_frame_size (training : bool) (self : UNet) (x : Size)
  : result (Frame Size) :=
  UNet_forward_frame (fun _ => module_size training) cat_size self x.

(** ** Values of the modules *)

(** The arithmetic of tensor elements.  The network is written once over
    this interface; [R_scalar] below is exact real arithmetic, [single_scalar]
    further down the single-precision arithmetic of the tensors. *)
Class Scalar (V : Type) : Type := {
  s_zero : V;
  s_of_Z : Z -> V;
  s_add : V -> V -> V;
  s_sub : V -> V -> V;
  s_mul : V -> V -> V;
  s_div : V -> V -> V;
  s_max : V -> V -> V;
  s_sqrt : V -> V;
  s_exp : V -> V;
  s_ltb : V -> V -> bool
}.

Definition Rltb (a b : R) : bool := if Rlt_dec a b then true else false.

#[global] Instance R_scalar : Scalar R := {|
  s_zero := 0%R; s_of_Z := IZR;
  s_add := Rplus; s_sub := Rminus; s_mul := Rmult; s_div := Rdiv;
  s_max := Rmax; s_sqrt := sqrt; s_exp := exp; s_ltb := Rltb
|}.

Section Values.
Context {V : Type} `{Scalar V}.

(** A 4D tensor: its size and its value at each index. *)
Record Tensor : Type := mkTensor { size : Size; data : Z -> Z -> Z -> Z -> V }.

(** [state_dict]: the value of each named parameter or buffer at an index. *)
Definition state_dict : Type := string -> list Z -> V.

(** Sum of [f k] for [0 <= k < n]. *)
Definition s_sum (n : Z) (f : Z -> V) : V :=
  foldr (fun k acc => s_add (f k) acc) s_zero (seqZ 0 n).

(** Largest element of a list ([s_zero] for the empty list). *)
Definition s_maximum (l : list V) : V :=
  match l with
  | [] => s_zero
  | v :: l' => foldl s_max v l'
  end.

(** Value at a spatial position, zero outside the tensor (zero padding). *)
Definition padded (x : Tensor) (n c i j : Z) : V :=
  if (0 <=? i) && (i <? height (size x)) && (0 <=? j) && (j <? width (size x))
  then data x n c i j else s_zero.

(** Cross-correlation of stride 1 with zero padding [p]. *)
Definition conv2d_data (st : state_dict) (prefix : string) (cin k p : Z) (bias : bool)
    (x : Tensor) (n o i j : Z) : V :=
  s_add
    (s_sum cin (fun c => s_sum k (fun a => s_sum k (fun b =>
       s_mul (st (prefix +:+ ".weight") [o; c; a; b])
             (padded x n c (i + a - p) (j + b - p))))))
    (if bias then st (prefix +:+ ".bias") [o] else s_zero).

(** The [eps] default of [BatchNorm2d], 1e-5. *)
Definition bn_eps : V := s_div (s_of_Z 1) (s_of_Z 100000).

(** Number of values per channel. *)
Definition per_channel (x : Tensor) : V :=
  s_of_Z (batch (size x) * height (size x) * width (size x)).

(** Mean of channel [c] over the batch and both spatial axes. *)
Definition batch_mean (x : Tensor) (c : Z) : V :=
  s_div
    (s_sum (batch (size x)) (fun n => s_sum (height (size x)) (fun i =>
       s_sum (width (size x)) (fun j => data x n c i j))))
    (per_channel x).

(** Biased variance of channel [c] over the batch and both spatial axes. *)
Definition batch_var (x : Tensor) (c : Z) : V :=
  s_div
    (s_sum (batch (size x)) (fun n => s_sum (height (size x)) (fun i =>
       s_sum (width (size x)) (fun j =>
         let d := s_sub (data x n c i j) (batch_mean x c) in s_mul d d))))
    (per_channel x).

(** Batch statistics when training, running statistics otherwise. *)
Definition batch_norm_data (st : state_dict) (prefix : string) (training : bool)
    (x : Tensor) (n c i j : Z) : V :=
  let mean := if training then batch_mean x c
              else st (prefix +:+ ".running_mean") [c] in
  let var := if training then batch_var x c
             else st (prefix +:+ ".running_var") [c] in
  s_add
    (s_mul (s_div (s_sub (data x n c i j) mean) (s_sqrt (s_add var bn_eps)))
           (st (prefix +:+ ".weight") [c]))
    (st (prefix +:+ ".bias") [c]).

Definition relu_data (x : Tensor) (n c i j : Z) : V := s_max (data x n c i j) s_zero.

(** Maximum over the [k] x [k] window at stride [s]. *)
Definition max_pool_data (k s : Z) (x : Tensor) (n c i j : Z) : V :=
  s_maximum (a ← seqZ 0 k; b ← seqZ 0 k; [data x n c (i * s + a) (j * s + b)]).

(** Transposed convolution without padding: the input position [(i', j')]
    contributes to the output positions [(i' * s + a, j' * s + b)]. *)
Definition conv_transpose_data (st : state_dict) (prefix : string) (cin k s : Z)
    (x : Tensor) (n o i j : Z) : V :=
  s_add
    (s_sum cin (fun c => s_sum k (fun a => s_sum k (fun b =>
       if ((i - a) mod s =? 0) && ((j - b) mod s =? 0)
       then s_mul (padded x n c ((i - a) / s) ((j - b) / s))
                  (st (prefix +:+ ".weight") [c; o; a; b])
       else s_zero))))
    (st (prefix +:+ ".bias") [o]).

(** Extent of a size along axis [dim] and the value met when the index
    moves to [k] along that axis. *)
Definition extent (dim : Z) (s : Size) : Z :=
  match dim with
  | 0 => batch s | 1 => channels s | 2 => height s | _ => width s
  end.

Definition along (dim : Z) (x : Tensor) (n c i j : Z) (k : Z) : V :=
  match dim with
  | 0 => data x k c i j | 1 => data x n k i j
  | 2 => data x n c k j | _ => data x n c i k
  end.

(** A negative [dim] counts from the last axis. *)
Definition wrap_dim (dim : Z) : Z := if dim <? 0 then dim + 4 else dim.

(** Normalised exponential along axis [dim].  As in torch's kernels, the
    largest value along the axis is subtracted before the exponential; the
    exponentials are then divided by their sum. *)
Definition softmax_data (dim : Z) (x : Tensor) (n c i j : Z) : V :=
  let d := wrap_dim dim in
  let m := s_maximum (map (along d x n c i j) (seqZ 0 (extent d (size x)))) in
  s_div (s_exp (s_sub (data x n c i j) m))
        (s_sum (extent d (size x)) (fun k => s_exp (s_sub (along d x n c i j k) m))).

(** Values of a module without children. *)
Definition leaf_data (st : state_dict) (prefix : string) (training : bool)
    (m : module) (x : Tensor) : Z -> Z -> Z -> Z -> V :=
  match m with
  | Conv2d cin _ k p bias => conv2d_data st prefix cin k p bias x
  | BatchNorm2d _ => batch_norm_data st prefix training x
  | ReLU => relu_data x
  | MaxPool2d k s => max_pool_data k s x
  | ConvTranspose2d cin _ k s => conv_transpose_data st prefix cin k s x
  | Softmax dim => softmax_data dim x
  | Sequential _ => data x
  end.

(** [m(x)] for the module [m] registered under the name [prefix].  In
    training mode a batch normalisation also moves its running statistics;
    the value it returns does not depend on them, and that update is left
    out. *)
Fixpoint module_apply (st : state_dict) (training : bool) (prefix : string)
    (m : module) (x : Tensor) : result Tensor :=
  match m with
  | Sequential children =>
      (fix go (cs : list (string * module)) (x : Tensor) : result Tensor :=
         match cs with
         | [] => Ok x
         | (name, c) :: cs' =>
             x' ← module_apply st training (prefix +:+ "." +:+ name) c x; go cs' x'
         end) children x
  | _ =>
      s ← module_size training m (size x);
      mret (mkTensor s (leaf_data st prefix training m x))
  end.

(** [torch.cat((a, b), dim=1)] on values. *)
Definition torch_cat (a b : Tensor) : result Tensor :=
  s ← cat_size (size a) (size b);
  mret (mkTensor s (fun n c i j =>
          if c <? channels (size a) then data a n c i j
          else data b n (c - channels (size a)) i j)).

(** [unet(x)] with the parameters and buffers [st]. *)
Definition forward (st : state_dict) (training : bool) (self : UNet) (x : Tensor)
  : result Tensor :=
  UNet_forward (module_apply st training) torch_cat self x.

Definition forward_frame (st : state_dict) (training : bool) (self : UNet) (x : Tensor)
  : result (Frame Tensor) :=
  UNet_forward_frame (module_apply st training) torch_cat self x.

End Values.

Arguments Tensor V : clear implicits.
Arguments state_dict V : clear implicits.

(** ** NumPy arrays *)

(** Arrays of rank 2 and 3: the shape and the element at each index. *)
Record Array2 (V : Type) : Type := mkArray2 { shape2 : Z * Z; item2 : Z -> Z -> V }.
Record Array3 (V : Type) : Type := mkArray3 { shape3 : Z * Z * Z; item3 : Z -> Z -> Z -> V }.
Arguments mkArray2 {V} _ _.
Arguments shape2 {V} _.
Arguments item2 {V} _ _ _.
Arguments mkArray3 {V} _ _.
Arguments shape3 {V} _.
Arguments item3 {V} _ _ _ _.

(** Elements of a 2D array in row-major order. *)
Definition elements2 {V : Type} (a : Array2 V) : list V :=
  x ← seqZ 0 (fst (shape2 a)); y ← seqZ 0 (snd (shape2 a)); [item2 a x y].

(** [a[:, :, k]]; a negative index counts from the end of the axis. *)
Definition slice_z {V : Type} (a : Array3 V) (k : Z) : result (Array2 V) :=
  let '(X, Y, D) := shape3 a in
  let k' := if k <? 0 then k + D else k in
  if (0 <=? k') && (k' <? D)
  then Ok (mkArray2 (X, Y) (fun x y => item3 a x y k'))
  else Raise IndexError_index.

(** [a[:, :, k] = m]; an extent 1 of [m] is broadcast along its axis. *)
Definition setitem_z {V : Type} (a : Array3 V) (k : Z) (m : Array2 V)
  : result (Array3 V) :=
  let '(X, Y, D) := shape3 a in
  let '(mx, my) := shape2 m in
  let k' := if k <? 0 then k + D else k in
  if negb ((0 <=? k') && (k' <? D)) then Raise IndexError_index
  else if negb (((mx =? X) || (mx =? 1)) && ((my =? Y) || (my =? 1)))
  then Raise ValueError_broadcast
  else Ok (mkArray3 (X, Y, D) (fun x y z =>
             if z =? k'
             then item2 m (if mx =? X then x else 0) (if my =? Y then y else 0)
             else item3 a x y z)).

(** [np.zeros(shape)] for labels. *)
Definition np_zeros (shape : Z * Z * Z) : Array3 Z := mkArray3 shape (fun _ _ _ => 0).

(** ** IEEE arithmetic of the slice normalisation *)

(** [get_fdata()] yields double precision (53 bits, [emax] 1024); [np.single]
    is single precision (24 bits, [emax] 128). *)
Definition is_nan (v : spec_float) : bool :=
  match v with S754_nan => true | _ => false end.

Definition is_zero (v : spec_float) : bool :=
  match v with S754_zero _ => true | _ => false end.

(** Rounding of a double to single precision ([astype(np.single)]). *)
Definition astype_single (v : spec_float) : spec_float :=
  match v with
  | S754_finite s m e => binary_round 24 128 s m e
  | _ => v
  end.

Definition single_div : spec_float -> spec_float -> spec_float := SFdiv 24 128.

(** [np.maximum]: the larger operand, a NaN when there is one.  Of a
    positive and a negative zero the first is kept, where the reduction may
    return either. *)
Definition np_maximum (a b : spec_float) : spec_float :=
  if SFleb b a || is_nan a then a else b.

(** [np.max(a)]: the reduction by [np.maximum]; an empty array has no maximum. *)
Definition np_max (a : Array2 spec_float) : result spec_float :=
  match elements2 a with
  | [] => Raise ValueError_zero_size
  | v :: l => Ok (foldl np_maximum v l)
  end.

(** [training_volume[:,:,slice_ix].astype(np.single)
      / np.max(training_volume[:,:,slice_ix])].
    The single-precision array divided by the double-precision scalar is a
    single-precision array (NumPy 1.x promotion, for a maximum in single
    range), which the network's single-precision weights require. *)
Definition normalize_slice (training_volume : Array3 spec_float) (slice_ix : Z)
  : result (Array2 spec_float) :=
  a ← slice_z training_volume slice_ix;
  b ← slice_z training_volume slice_ix;
  m ← np_max b;
  mret (mkArray2 (shape2 a)
          (fun x y => single_div (astype_single (item2 a x y)) (astype_single m))).

(** Doubles from integers, for concrete arrays. *)
Definition double_of_Z (z : Z) : spec_float := binary_normalize 53 1024 z 0 false.

(** 2^127 as a double. *)
Definition single_range_bound : spec_float := S754_finite false 4503599627370496 75.

(** Voxels as [get_fdata] can yield them, and on which the division above
    is the one NumPy performs in single precision: a double in canonical
    form, no negative zero (the reduction of [np.max] may return either zero
    of a tie) and no finite double beyond 2^127 in magnitude (NumPy 1.x keeps
    the quotient in double precision when the maximum is not below 3.4e38 in
    magnitude). *)
Definition in_single_range (v : spec_float) : bool :=
  valid_binary 53 1024 v &&
  match v with
  | S754_zero s => negb s
  | S754_finite _ _ _ => SFleb (SFabs v) single_range_bound
  | _ => true
  end.

(** What [np.max] documents for slice [k] of a volume with [X] x [Y] voxels
    per slice: NaN when the slice holds a NaN, and otherwise an element of
    the slice that no element of the slice exceeds. *)
Definition slice_maximum (vol : Array3 spec_float) (X Y k : Z) (m : spec_float) : Prop :=
  ((exists x y, 0 <= x < X /\ 0 <= y < Y /\ is_nan (item3 vol x y k) = true) /\
   m = S754_nan) \/
  ((forall x y, 0 <= x < X -> 0 <= y < Y -> is_nan (item3 vol x y k) = false) /\
   (exists x y, 0 <= x < X /\ 0 <= y < Y /\ m = item3 vol x y k) /\
   (forall x y, 0 <= x < X -> 0 <= y < Y -> SFleb (item3 vol x y k) m = true)).

(** ** Single-precision arithmetic of the tensors *)

(** Zeros and the other finite numbers, as opposed to NaN and the
    infinities. *)
Definition is_finite (v : spec_float) : bool :=
  match v with S754_zero _ | S754_finite _ _ _ => true | _ => false end.

Definition single_one : spec_float := S754_finite false 8388608 (-23).

Definition single_of_Z (z : Z) : spec_float := binary_normalize 24 128 z 0 false.

(** The maximum of two values as torch's kernels compute it: the second
    operand when it is larger or NaN, the first operand otherwise (a NaN
    stays, and of two equal values, as the two zeros, the first is kept). *)
Definition single_max (a b : spec_float) : spec_float :=
  if is_nan b then b else if SFltb a b then b else a.

(** The comparison of [torch.argmax]: NaN counts as larger than every other
    value. *)
Definition single_ltb (a b : spec_float) : bool :=
  negb (is_nan a) && (is_nan b || SFltb a b).

(** The exponential.  For a finite [v] below 128 in magnitude, [e^v] is
    computed in fixed point with [exp_bits] fractional bits, as the eighth
    repeated square of the series of [e^(v/256)], and rounded to single
    precision; beyond, it overflows to infinity or underflows to zero.  The
    library's kernel is accurate to the last bit or so; [e^0 = 1],
    [e^NaN = NaN] and the values at the infinities are exact in both. *)
Definition exp_bits : Z := 512.

Fixpoint exp_series (n : nat) (k : Z) (term acc t : Z) : Z :=
  match n with
  | O => acc
  | S n' =>
      let term' := term * t / (k * 2 ^ exp_bits) in
      exp_series n' (k + 1) term' (acc + term') t
  end.

Fixpoint square_times (n : nat) (y : Z) : Z :=
  match n with
  | O => y
  | S n' => square_times n' (y * y / 2 ^ exp_bits)
  end.

Definition single_exp (v : spec_float) : spec_float :=
  match v with
  | S754_nan => S754_nan
  | S754_infinity s => if s then S754_zero false else v
  | S754_zero _ => single_one
  | S754_finite s m e =>
      if 8 <=? Z.pos (digits2_pos m) + e
      then (if s then S754_zero false else S754_infinity false)
      else
        let t := cond_Zopp s (Z.shiftl (Z.pos m) (e + exp_bits - 8)) in
        binary_normalize 24 128
          (square_times 8 (exp_series 100 1 (2 ^ exp_bits) (2 ^ exp_bits) t))
          (- exp_bits) false
  end.

(** The arithmetic of [torch.float32] tensors.  The sums of the modules are
    taken in index order; the library's kernels may associate them otherwise,
    which changes roundings but not what they do with NaN. *)
#[global] Instance single_scalar : Scalar spec_float := {|
  s_zero := S754_zero false; s_of_Z := single_of_Z;
  s_add := SFadd 24 128; s_sub := SFsub 24 128; s_mul := SFmul 24 128;
  s_div := SFdiv 24 128; s_max := single_max; s_sqrt := SFsqrt 24 128;
  s_exp := single_exp; s_ltb := single_ltb
|}.

(** ** Laws of an arithmetic *)

(** Values that every operation passes on, as IEEE arithmetic does a NaN. *)
Class Absorbing {V : Type} `{Scalar V} (bad : V -> Prop) : Prop := {
  bad_add_l : forall a b, bad a -> bad (s_add a b);
  bad_add_r : forall a b, bad b -> bad (s_add a b);
  bad_sub_l : forall a b, bad a -> bad (s_sub a b);
  bad_sub_r : forall a b, bad b -> bad (s_sub a b);
  bad_mul_l : forall a b, bad a -> bad (s_mul a b);
  bad_mul_r : forall a b, bad b -> bad (s_mul a b);
  bad_div_l : forall a b, bad a -> bad (s_div a b);
  bad_div_r : forall a b, bad b -> bad (s_div a b);
  bad_max_l : forall a b, bad a -> bad (s_max a b);
  bad_max_r : forall a b, bad b -> bad (s_max a b);
  bad_sqrt : forall a, bad a -> bad (s_sqrt a);
  bad_exp : forall a, bad a -> bad (s_exp a)
}.

(** The comparison of the arg-max orders the values in classes: it is
    irreflexive and transitive, and so is being incomparable. *)
Class LtbOrder (V : Type) `{Scalar V} : Prop := {
  ltb_irrefl : forall a, s_ltb a a = false;
  ltb_trans : forall a b c, s_ltb a b = true -> s_ltb b c = true -> s_ltb a c = true;
  ltb_neg_trans : forall a b c,
    s_ltb a b = false -> s_ltb b c = false -> s_ltb a c = false
}.

(** Every value of a tensor within its size satisfies [P]. *)
Definition all_within {V : Type} (P : V -> Prop) (x : Tensor V) : Prop :=
  forall n c i j : Z,
    0 <= n < batch (size x) -> 0 <= c < channels (size x) ->
    0 <= i < height (size x) -> 0 <= j < width (size x) ->
    P (data x n c i j).

(** The place of a float in the order of the comparisons: by class and sign,
    then by exponent, then by mantissa; the two zeros share a place and NaN
    comes last. *)
Definition float_rank (v : spec_float) : Z * Z * Z :=
  match v with
  | S754_nan => (3, 0, 0)
  | S754_infinity false => (2, 0, 0)
  | S754_infinity true => (-2, 0, 0)
  | S754_zero _ => (0, 0, 0)
  | S754_finite false m e => (1, e, Z.pos m)
  | S754_finite true m e => (-1, - e, - Z.pos m)
  end.

Definition lex_lt (a b : Z * Z * Z) : Prop :=
  let '(a1, a2, a3) := a in
  let '(b1, b2, b3) := b in
  a1 < b1 \/ (a1 = b1 /\ (a2 < b2 \/ (a2 = b2 /\ a3 < b3))).

(** ** The training cell *)

Section Training.
Context {V : Type}.
(** The value of a single-precision float as a tensor element. *)
Variable of_float : spec_float -> V.
(** [World] holds everything the calls below mutate in place: parameters,
    gradients, batch-norm buffers and the optimiser's moments.  [Y] and [L]
    are the label tensor and the loss value. *)
Context {World Y L : Type}.
(** The label extraction, [lbl_tensor] of the slice: the notebook leaves
    this code to the learner. *)
Variable extract_label : Array3 spec_float -> Z -> result Y.
(** [optimizer.zero_grad()], [unet(x)], [loss(pred, lbl)], [l.backward()],
    [optimizer.step()]. *)
Variable zero_grad : World -> World.
Variable unet_call : World -> Tensor V -> result (Tensor V * World).
Variable loss_call : Tensor V -> Y -> result L.
Variable backward : World -> L -> World.
Variable optimizer_step : World -> World.

(** [torch.from_numpy(slc).unsqueeze(0).unsqueeze(0)]: a batch of one image
    with one channel. *)
Definition slc_tensor_of (slc : Array2 spec_float) : Tensor V :=
  mkTensor (mkSize 1 1 (fst (shape2 slc)) (snd (shape2 slc)))
           (fun _ _ i j => of_float (item2 slc i j)).

(** The calls made, in the order they are made. *)
Inductive event : Type :=
| Ev_zero_grad
| Ev_forward (x : Tensor V)
| Ev_loss (pred : Tensor V) (lbl : Y)
| Ev_backward (l : L)
| Ev_step
| Ev_print (epoch : Z) (l : L).

Inductive event_kind : Type :=
| K_zero_grad | K_forward | K_loss | K_backward | K_step | K_print.

Definition kind_of (e : event) : event_kind :=
  match e with
  | Ev_zero_grad => K_zero_grad
  | Ev_forward _ => K_forward
  | Ev_loss _ _ => K_loss
  | Ev_backward _ => K_backward
  | Ev_step => K_step
  | Ev_print _ _ => K_print
  end.

Definition forward_input (e : event) : list (Tensor V) :=
  match e with Ev_forward x => [x] | _ => [] end.

(** The notebook's globals the loop reads and writes. *)
Record Env : Type := mkEnv {
  world : World;
  trace : list event;
  pred : option (Tensor V);
  l : option L
}.

(** One iteration of the inner loop. *)
Definition train_step (training_volume training_label : Array3 spec_float)
    (env : Env) (slice_ix : Z) : result Env :=
  slc ← normalize_slice training_volume slice_ix;
  let slc_tensor := slc_tensor_of slc in
  lbl_tensor ← extract_label training_label slice_ix;
  let w1 := zero_grad (world env) in
  pw ← unet_call w1 slc_tensor;
  let '(pred, w2) := pw in
  l ← loss_call pred lbl_tensor;
  let w3 := backward w2 l in
  let w4 := optimizer_step w3 in
  mret (mkEnv w4
          (trace env ++ [Ev_zero_grad; Ev_forward slc_tensor; Ev_loss pred lbl_tensor;
                         Ev_backward l; Ev_step])
          (Some pred) (Some l)).

(** [for a in xs: body]. *)
Fixpoint for_each {A S : Type} (body : S -> A -> result S) (xs : list A) (s : S)
  : result S :=
  match xs with
  | [] => Ok s
  | a :: xs' => s' ← body s a; for_each body xs' s'
  end.

(** [print(f"Epoch: {epoch}, training loss: {l}")]. *)
Definition print_epoch (env : Env) (epoch : Z) : result Env :=
  match l env with
  | Some lv => Ok (mkEnv (world env) (trace env ++ [Ev_print epoch lv]) (pred env) (l env))
  | None => Raise NameError
  end.

(** [for epoch in range(0,10): for slice_ix in range(0,15): ...]. *)
Definition training_loop (training_volume training_label : Array3 spec_float)
    (env : Env) : result Env :=
  for_each
    (fun env epoch =>
       env' ← for_each (train_step training_volume training_label) (seqZ 0 15) env;
       print_epoch env' epoch)
    (seqZ 0 10) env.

End Training.

Arguments event V Y L : clear implicits.
Arguments Env V World Y L : clear implicits.

(** The kinds of the calls of one iteration, of one epoch and of the loop. *)
Definition step_kinds : list event_kind :=
  [K_zero_grad; K_forward; K_loss; K_backward; K_step].
Definition epoch_kinds : list event_kind :=
  (seqZ 0 15 ≫= fun _ => step_kinds) ++ [K_print].
Definition loop_kinds : list event_kind := seqZ 0 10 ≫= fun _ => epoch_kinds.

(** The inputs of the forward passes of a trace, in order. *)
Definition forward_inputs {V Y L : Type} (t : list (event V Y L)) : list (Tensor V) :=
  t ≫= forward_input.

(** ** Concrete volumes *)

(** One slice of two voxels, -1 and 2. *)
Definition negative_volume : Array3 spec_float :=
  mkArray3 (1, 2, 1) (fun _ y _ => if y =? 0 then double_of_Z (-1) else double_of_Z 2).

(** One slice of 2 x 2 voxels, all zero. *)
Definition zero_volume : Array3 spec_float :=
  mkArray3 (2, 2, 1) (fun _ _ _ => S754_zero false).

(** Three slices of 16 x 16 voxels, all one. *)
Definition small_volume : Array3 spec_float :=
  mkArray3 (16, 16, 3) (fun _ _ _ => double_of_Z 1).

(** Fifteen slices of one voxel, all one. *)
Definition ones_volume : Array3 spec_float :=
  mkArray3 (1, 1, 15) (fun _ _ _ => double_of_Z 1).

(** A runtime that accepts everything: the world counts the optimiser steps,
    the network returns its input, labels and losses carry nothing. *)
Definition toy_label (_ : Array3 spec_float) (_ : Z) : result unit := Ok tt.
Definition toy_unet (w : Z) (x : Tensor spec_float)
  : result (Tensor spec_float * Z) := Ok (x, w).
Definition toy_loss (_ : Tensor spec_float) (_ : unit) : result unit := Ok tt.
Definition toy_backward (w : Z) (_ : unit) : Z := w.
Definition toy_env : Env spec_float Z unit unit := mkEnv 0 [] None None.

(** ** Concrete tensors and weights in single precision *)

(** An image of 16 x 16 pixels, all NaN, as the normalisation of a slice of
    zeros gives, and one of zeros. *)
Definition nan_image : Tensor spec_float :=
  mkTensor (mkSize 1 1 16 16) (fun _ _ _ _ => S754_nan).
Definition zero_image : Tensor spec_float :=
  mkTensor (mkSize 1 1 16 16) (fun _ _ _ _ => S754_zero false).

(** Parameters and buffers all zero, and all one. *)
Definition zero_weights : state_dict spec_float := fun _ _ => S754_zero false.
Definition unit_weights : state_dict spec_float := fun _ _ => single_one.

(** Fifteen slices of 32 x 32 voxels: 3 in the first row, 1 elsewhere. *)
Definition ramp_volume : Array3 spec_float :=
  mkArray3 (32, 32, 15) (fun x _ _ => if x =? 0 then double_of_Z 3 else double_of_Z 1).

(** A runtime around the notebook's network in training mode: the world is
    the state dictionary, which the optimiser leaves as it is. *)
Definition net_call (w : state_dict spec_float) (x : Tensor spec_float)
  : result (Tensor spec_float * state_dict spec_float) :=
  y ← forward w true unet x; mret (y, w).
Definition net_backward (w : state_dict spec_float) (_ : unit) : state_dict spec_float := w.
Definition net_env : Env spec_float (state_dict spec_float) unit unit :=
  mkEnv unit_weights [] None None.

(** ** The mask and the reconstruction *)

Section Inference.
Context {V : Type} `{Scalar V}.
Variable of_float : spec_float -> V.

(** Index of the first largest element of [v :: vs], counting from [i]. *)
Fixpoint argmax_from (i : Z) (best : Z) (bv : V) (vs : list V) : Z :=
  match vs with
  | [] => best
  | v :: vs' =>
      if s_ltb bv v then argmax_from (i + 1) i v vs'
      else argmax_from (i + 1) best bv vs'
  end.

Definition argmax_list (vs : list V) : Z :=
  match vs with
  | [] => 0
  | v :: vs' => argmax_from 1 0 v vs'
  end.

(** [torch.argmax(pred, dim=0)] on a [pred] of three axes: for each position
    of the two last axes, the index along the first one. *)
Definition torch_argmax_dim0 (pred : Array3 V) : result (Array2 Z) :=
  let '(C, Hh, Ww) := shape3 pred in
  if C <? 1 then Raise IndexError_dim
  else Ok (mkArray2 (Hh, Ww)
             (fun i j => argmax_list (map (fun c => item3 pred c i j) (seqZ 0 C)))).

(** [out[0]]: the only image of the batch, with axes (channel, height, width). *)
Definition first_of_batch (out : Tensor V) : result (Array3 V) :=
  if batch (size out) <? 1 then Raise IndexError_index
  else Ok (mkArray3 (channels (size out), height (size out), width (size out))
             (fun c i j => data out 0 c i j)).

(** Modelled from the spec: the inference on one slice, which the notebook
    leaves to the learner.  In evaluation mode: normalise the slice as in
    training, run the forward pass, and take the arg-max across the channel
    axis, with the notebook's [mask = torch.argmax(pred, dim=0)] on the single
    image of the batch. *)
Definition inference (st : state_dict V) (self : UNet)
    (training_volume : Array3 spec_float) (slice_ix : Z) : result (Array2 Z) :=
  slc ← normalize_slice training_volume slice_ix;
  out ← forward st false self (slc_tensor_of of_float slc);
  pred ← first_of_batch out;
  torch_argmax_dim0 pred.

(** Modelled from the spec: the reconstruction loop, which the notebook
    leaves to the learner.  An output array of the volume's shape receives
    the mask of every slice at the slice's depth index. *)
Definition reconstruct (st : state_dict V) (self : UNet)
    (training_volume : Array3 spec_float) : result (Array3 Z) :=
  for_each
    (fun mask3d slice_ix =>
       mask ← inference st self training_volume slice_ix;
       setitem_z mask3d slice_ix mask)
    (seqZ 0 (snd (shape3 training_volume)))
    (np_zeros (shape3 training_volume)).

End Inference.

(** ** The save cell *)

Section Nifti.
(** [D] is the voxel array of an image, [E] the type of a matrix entry. *)
Context {D E : Type}.

Definition row4 : Type := E * E * E * E.
Definition affine4 : Type := row4 * row4 * row4 * row4.

(** [nib.Nifti1Image(dataobj, affine)]. *)
Record Nifti1Image : Type := mkNifti1Image { dataobj : D; affine : affine4 }.

(** The image files, by path. *)
Definition nib_load (path : string) (fs : gmap string Nifti1Image)
  : result Nifti1Image :=
  match fs !! path with
  | Some img => Ok img
  | None => Raise FileNotFoundError
  end.

Definition nib_save (img : Nifti1Image) (path : string) (fs : gmap string Nifti1Image)
  : gmap string Nifti1Image :=
  <[path := img]> fs.

(** [org_volume = nib.load("data/spleen1_img.nii.gz")];
    [img_out = nib.Nifti1Image(mask3d, org_volume.affine)];
    [nib.save(img_out, "data/out.nii.gz")]. *)
Definition save_cell (mask3d : D) (fs : gmap string Nifti1Image)
  : result (gmap string Nifti1Image) :=
  org_volume ← nib_load "data/spleen1_img.nii.gz" fs;
  let img_out := mkNifti1Image mask3d (affine org_volume) in
  mret (nib_save img_out "data/out.nii.gz" fs).

End Nifti.

Arguments Nifti1Image D E : clear implicits.
Arguments affine4 E : clear implicits.

(** An image whose transform has a shear and scales other than one. *)
Definition sheared_image : Nifti1Image unit Z :=
  mkNifti1Image tt ((2, 1, 0, -120), (0, 3, 0, 45), (0, 0, 5, -7), (0, 0, 0, 1)).

Definition identity_affine : affine4 Z :=
  ((1, 0, 0, 0), (0, 1, 0, 0), (0, 0, 1, 0), (0, 0, 0, 1)).

(** ** Sizes met by a forward pass *)

Definition Frame_map {A B : Type} (g : A -> B) (fr : Frame A) : Frame B :=
  mkFrame (g (f_enc1 fr)) (g (f_enc2 fr)) (g (f_enc3 fr)) (g (f_enc4 fr))
          (g (f_bottleneck fr))
          (g (f_up4 fr)) (g (f_cat4 fr)) (g (f_dec4 fr))
          (g (f_up3 fr)) (g (f_cat3 fr)) (g (f_dec3 fr))
          (g (f_up2 fr)) (g (f_cat2 fr)) (g (f_dec2 fr))
          (g (f_up1 fr)) (g (f_cat1 fr)) (g (f_dec1 fr))
          (g (f_out_conv fr)) (g (f_return fr)).

(** The sizes of the values [forward] binds on [n] images of [16a] x [16b]
    pixels, for a network of [co] output channels and initial width [F]. *)
Definition frame_sizes (n co F a b : Z) : Frame Size :=
  {| f_enc1 := mkSize n F (16 * a) (16 * b);
     f_enc2 := mkSize n (F * 2) (8 * a) (8 * b);
     f_enc3 := mkSize n (F * 4) (4 * a) (4 * b);
     f_enc4 := mkSize n (F * 8) (2 * a) (2 * b);
     f_bottleneck := mkSize n (F * 16) a b;
     f_up4 := mkSize n (F * 8) (2 * a) (2 * b);
     f_cat4 := mkSize n (F * 8 + F * 8) (2 * a) (2 * b);
     f_dec4 := mkSize n (F * 8) (2 * a) (2 * b);
     f_up3 := mkSize n (F * 4) (4 * a) (4 * b);
     f_cat3 := mkSize n (F * 4 + F * 4) (4 * a) (4 * b);
     f_dec3 := mkSize n (F * 4) (4 * a) (4 * b);
     f_up2 := mkSize n (F * 2) (8 * a) (8 * b);
     f_cat2 := mkSize n (F * 2 + F * 2) (8 * a) (8 * b);
     f_dec2 := mkSize n (F * 2) (8 * a) (8 * b);
     f_up1 := mkSize n F (16 * a) (16 * b);
     f_cat1 := mkSize n (F + F) (16 * a) (16 * b);
     f_dec1 := mkSize n F (16 * a) (16 * b);
     f_out_conv := mkSize n co (16 * a) (16 * b);
     f_return := mkSize n co (16 * a) (16 * b) |}.

(** The calls of [forward], step by step, for the values of a frame. *)
Definition frame_steps {T : Type} (call : string -> module -> T -> result T)
    (cat : T -> T -> result T) (self : UNet) (x : T) (fr : Frame T) : Prop :=
  call "encoder1" (encoder1 self) x = Ok (f_enc1 fr) /\
  (exists p1, call "pool1" (pool1 self) (f_enc1 fr) = Ok p1 /\
              call "encoder2" (encoder2 self) p1 = Ok (f_enc2 fr)) /\
  (exists p2, call "pool2" (pool2 self) (f_enc2 fr) = Ok p2 /\
              call "encoder3" (encoder3 self) p2 = Ok (f_enc3 fr)) /\
  (exists p3, call "pool3" (pool3 self) (f_enc3 fr) = Ok p3 /\
              call "encoder4" (encoder4 self) p3 = Ok (f_enc4 fr)) /\
  (exists p4, call "pool4" (pool4 self) (f_enc4 fr) = Ok p4 /\
              call "bottleneck" (bottleneck self) p4 = Ok (f_bottleneck fr)) /\
  call "upconv4" (upconv4 self) (f_bottleneck fr) = Ok (f_up4 fr) /\
  cat (f_up4 fr) (f_enc4 fr) = Ok (f_cat4 fr) /\
  call "decoder4" (decoder4 self) (f_cat4 fr) = Ok (f_dec4 fr) /\
  call "upconv3" (upconv3 self) (f_dec4 fr) = Ok (f_up3 fr) /\
  cat (f_up3 fr) (f_enc3 fr) = Ok (f_cat3 fr) /\
  call "decoder3" (decoder3 self) (f_cat3 fr) = Ok (f_dec3 fr) /\
  call "upconv2" (upconv2 self) (f_dec3 fr) = Ok (f_up2 fr) /\
  cat (f_up2 fr) (f_enc2 fr) = Ok (f_cat2 fr) /\
  call "decoder2" (decoder2 self) (f_cat2 fr) = Ok (f_dec2 fr) /\
  call "upconv1" (upconv1 self) (f_dec2 fr) = Ok (f_up1 fr) /\
  cat (f_up1 fr) (f_enc1 fr) = Ok (f_cat1 fr) /\
  call "decoder1" (decoder1 self) (f_cat1 fr) = Ok (f_dec1 fr) /\
  call "conv" (conv self) (f_dec1 fr) = Ok (f_out_conv fr) /\
  call "softmax" (softmax self) (f_out_conv fr) = Ok (f_return fr).

(** The outcome of a forward pass on [n] images of [16a] x [16b] pixels. *)
Definition forward_outcome (training : bool) (n co F a b : Z) : result (Frame Size) :=
  if (a =? 0) || (b =? 0) then Raise RuntimeError_kernel_size
  else if training && (n * a * b =? 1) then Raise ValueError_single_value
  else Ok (frame_sizes n co F a b).

(** ** The display cell *)

(** An index along an axis of the given extent; a negative one counts from
    the end, and one outside the axis raises. *)
Definition wrap_index (i extent : Z) : result Z :=
  let i' := if i <? 0 then i + extent else i in
  if (0 <=? i') && (i' <? extent) then Ok i' else Raise IndexError_index.

(** [pred[n, c]]: the map of channel [c] of image [n]. *)
Definition tensor_getitem2 {V : Type} (pred : Tensor V) (n c : Z) : result (Array2 V) :=
  n' ← wrap_index n (batch (size pred));
  c' ← wrap_index c (channels (size pred));
  mret (mkArray2 (height (size pred), width (size pred))
          (fun i j => data pred n' c' i j)).

(** [pred.cpu().detach()[0,1]], the map shown by [plt.imshow] after the
    training loop. *)
Definition displayed_map {V : Type} (pred : Tensor V) : result (Array2 V) :=
  tensor_getitem2 pred 0 1.

(** * Properties *)

(** ** Results *)

Lemma bind_Ok {A B : Type} (m : result A) (f : A -> result B) (b : B) :
  m ≫= f = Ok b -> exists a, m = Ok a /\ f a = Ok b.
Proof. destruct m as [a|e]; simpl; [eauto | discriminate]. Qed.

Lemma fmap_Ok {A B : Type} (g : A -> B) (m : result A) (b : B) :
  g <$> m = Ok b -> exists a, m = Ok a /\ g a = b.
Proof. destruct m as [a|e]; simpl; intros Hm; [injection Hm; eauto | discriminate]. Qed.

(** ** Shape rules of the single modules *)

Lemma conv_out_same (extent : Z) : conv_out extent 3 1 = extent.
Proof. unfold conv_out. rewrite Z.div_1_r. lia. Qed.

Lemma conv_out_pointwise (extent : Z) : conv_out extent 1 0 = extent.
Proof. unfold conv_out. rewrite Z.div_1_r. lia. Qed.

Lemma pool_out_half (a : Z) : pool_out (2 * a) 2 2 = a.
Proof. unfold pool_out. Z.to_euclidean_division_equations. lia. Qed.

Lemma convT_out_double (extent : Z) : convT_out extent 2 2 = 2 * extent.
Proof. unfold convT_out. lia. Qed.

Lemma conv3_size training cin cout bias x :
  channels x = cin -> 1 <= height x -> 1 <= width x ->
  module_size training (Conv2d cin cout 3 1 bias) x
  = Ok (mkSize (batch x) cout (height x) (width x)).
Proof.
  intros Hc Hh Hw. simpl. rewrite Hc, Z.eqb_refl. simpl.
  destruct (height x + 2 * 1 <? 3) eqn:E1; [lia|].
  destruct (width x + 2 * 1 <? 3) eqn:E2; [lia|].
  simpl. now rewrite !conv_out_same.
Qed.

Lemma conv1_size training cin cout bias x :
  channels x = cin -> 1 <= height x -> 1 <= width x ->
  module_size training (Conv2d cin cout 1 0 bias) x
  = Ok (mkSize (batch x) cout (height x) (width x)).
Proof.
  intros Hc Hh Hw. simpl. rewrite Hc, Z.eqb_refl. simpl.
  destruct (height x + 2 * 0 <? 1) eqn:E1; [lia|].
  destruct (width x + 2 * 0 <? 1) eqn:E2; [lia|].
  simpl. now rewrite !conv_out_pointwise.
Qed.

Lemma batch_norm_size training nf x :
  channels x = nf ->
  training = false \/ batch x * height x * width x <> 1 ->
  module_size training (BatchNorm2d nf) x = Ok x.
Proof.
  intros Hc Hg. simpl. rewrite Hc, Z.eqb_refl. simpl.
  destruct Hg as [-> | Hg]; [reflexivity|].
  destruct (batch x * height x * width x =? 1) eqn:E; [lia|].
  now rewrite andb_false_r.
Qed.

Lemma batch_norm_single_value nf x :
  batch x * height x * width x = 1 ->
  module_size true (BatchNorm2d nf) x = Raise ValueError_single_value.
Proof. intros Hg. simpl. now rewrite Hg. Qed.

Lemma max_pool_size training n c a b :
  1 <= a -> 1 <= b ->
  module_size training (MaxPool2d 2 2) (mkSize n c (2 * a) (2 * b))
  = Ok (mkSize n c a b).
Proof.
  intros Ha Hb. simpl. rewrite !pool_out_half.
  destruct (a <? 1) eqn:E1; [lia|]. destruct (b <? 1) eqn:E2; [lia|]. reflexivity.
Qed.

Lemma upconv_size training cin cout x :
  channels x = cin ->
  module_size training (ConvTranspose2d cin cout 2 2) x
  = Ok (mkSize (batch x) cout (2 * height x) (2 * width x)).
Proof.
  intros Hc. simpl. rewrite Hc, Z.eqb_refl. simpl. now rewrite !convT_out_double.
Qed.

Lemma cat_size_same n c1 c2 h w :
  cat_size (mkSize n c1 h w) (mkSize n c2 h w) = Ok (mkSize n (c1 + c2) h w).
Proof. unfold cat_size. simpl. now rewrite !Z.eqb_refl. Qed.

Lemma relu_size training x : module_size training ReLU x = Ok x.
Proof. reflexivity. Qed.

Lemma sequential_size_nil training x :
  module_size training (Sequential []) x = Ok x.
Proof. reflexivity. Qed.

Lemma sequential_size_cons training name c cs x :
  module_size training (Sequential ((name, c) :: cs)) x
  = module_size training c x ≫= module_size training (Sequential cs).
Proof. reflexivity. Qed.

(** A block keeps the spatial size and sets the channel count. *)
Lemma unet_block_size training cin f name x :
  channels x = cin -> 1 <= height x -> 1 <= width x ->
  training = false \/ batch x * height x * width x <> 1 ->
  module_size training (unet_block cin f name) x
  = Ok (mkSize (batch x) f (height x) (width x)).
Proof.
  intros Hc Hh Hw Hg. unfold unet_block.
  rewrite sequential_size_cons, conv3_size by auto.
  cbn [mbind result_bind].
  rewrite sequential_size_cons, batch_norm_size by (simpl; auto).
  cbn [mbind result_bind].
  rewrite sequential_size_cons, relu_size. cbn [mbind result_bind].
  rewrite sequential_size_cons, conv3_size by (simpl; auto).
  cbn [mbind result_bind batch height width].
  rewrite sequential_size_cons, batch_norm_size by (simpl; auto).
  cbn [mbind result_bind].
  reflexivity.
Qed.

Lemma max_pool_half training x a b :
  height x = 2 * a -> width x = 2 * b -> 1 <= a -> 1 <= b ->
  module_size training (MaxPool2d 2 2) x = Ok (mkSize (batch x) (channels x) a b).
Proof. intros Hh Hw Ha Hb. destruct x as [n c h w]. simpl in Hh, Hw. subst h w.
  now apply max_pool_size. Qed.

Lemma cat_size_ok x y :
  batch x = batch y -> height x = height y -> width x = width y ->
  cat_size x y = Ok (mkSize (batch x) (channels x + channels y) (height x) (width x)).
Proof. intros Hn Hh Hw. unfold cat_size. now rewrite Hn, Hh, Hw, !Z.eqb_refl. Qed.

(** ** Sizes through the whole network *)

Ltac side_condition :=
  cbn [batch channels height width];
  first [ reflexivity | lia
        | match goal with
          | Hg : _ = false \/ _ |- _ \/ _ =>
              destruct Hg as [Hg | Hg]; [left; exact Hg | right; nia]
          end ].

Ltac next_module lem :=
  rewrite lem by side_condition;
  cbn [mbind result_bind batch channels height width].

Lemma forward_frame_size_ok training cin cout feat n a b :
  1 <= n -> 1 <= a -> 1 <= b ->
  training = false \/ n * a * b <> 1 ->
  forward_frame_size training (UNet_init cin cout feat)
    (mkSize n (default 1 cin) (16 * a) (16 * b))
  = Ok (frame_sizes n (default 1 cout) (default 32 feat) a b).
Proof.
  intros Hn Ha Hb Hg.
  unfold forward_frame_size, UNet_forward_frame, UNet_init.
  cbn [encoder1 pool1 encoder2 pool2 encoder3 pool3 encoder4 pool4 bottleneck
       upconv4 decoder4 upconv3 decoder3 upconv2 decoder2 upconv1 decoder1
       conv softmax].
  set (F := default 32 feat). set (ci := default 1 cin). set (co := default 1 cout).
  next_module unet_block_size.
  next_module (max_pool_half training (mkSize n F (16 * a) (16 * b)) (8 * a) (8 * b)).
  next_module unet_block_size.
  next_module (max_pool_half training (mkSize n (F * 2) (8 * a) (8 * b)) (4 * a) (4 * b)).
  next_module unet_block_size.
  next_module (max_pool_half training (mkSize n (F * 4) (4 * a) (4 * b)) (2 * a) (2 * b)).
  next_module unet_block_size.
  next_module (max_pool_half training (mkSize n (F * 8) (2 * a) (2 * b)) a b).
  next_module unet_block_size.
  next_module upconv_size.
  next_module cat_size_ok.
  next_module unet_block_size.
  next_module upconv_size.
  replace (2 * (2 * a)) with (4 * a) by lia. replace (2 * (2 * b)) with (4 * b) by lia.
  next_module cat_size_ok.
  next_module unet_block_size.
  next_module upconv_size.
  replace (2 * (4 * a)) with (8 * a) by lia. replace (2 * (4 * b)) with (8 * b) by lia.
  next_module cat_size_ok.
  next_module unet_block_size.
  next_module upconv_size.
  replace (2 * (8 * a)) with (16 * a) by lia. replace (2 * (8 * b)) with (16 * b) by lia.
  next_module cat_size_ok.
  next_module unet_block_size.
  next_module conv1_size.
  cbn [module_size]. reflexivity.
Qed.

Lemma forward_frame_size_empty training cin cout feat n a b :
  0 <= a -> 0 <= b -> a = 0 \/ b = 0 ->
  forward_frame_size training (UNet_init cin cout feat)
    (mkSize n (default 1 cin) (16 * a) (16 * b))
  = Raise RuntimeError_kernel_size.
Proof.
  intros Ha Hb H0.
  unfold forward_frame_size, UNet_forward_frame, UNet_init.
  cbn [encoder1]. unfold unet_block. rewrite sequential_size_cons.
  cbn [module_size channels height width]. rewrite Z.eqb_refl. cbn [negb].
  replace ((16 * a + 2 * 1 <? 3) || (16 * b + 2 * 1 <? 3)) with true; [reflexivity|].
  symmetry. apply orb_true_iff. destruct H0 as [-> | ->]; [left | right]; reflexivity.
Qed.

Lemma forward_frame_size_single cin cout feat :
  forward_frame_size true (UNet_init cin cout feat) (mkSize 1 (default 1 cin) 16 16)
  = Raise ValueError_single_value.
Proof.
  unfold forward_frame_size, UNet_forward_frame, UNet_init.
  cbn [encoder1 pool1 encoder2 pool2 encoder3 pool3 encoder4 pool4 bottleneck].
  set (F := default 32 feat). set (ci := default 1 cin).
  next_module unet_block_size.
  next_module (max_pool_half true (mkSize 1 F 16 16) 8 8).
  next_module unet_block_size.
  next_module (max_pool_half true (mkSize 1 (F * 2) 8 8) 4 4).
  next_module unet_block_size.
  next_module (max_pool_half true (mkSize 1 (F * 4) 4 4) 2 2).
  next_module unet_block_size.
  next_module (max_pool_half true (mkSize 1 (F * 8) 2 2) 1 1).
  unfold unet_block.
  rewrite sequential_size_cons, conv3_size by side_condition.
  cbn [mbind result_bind batch height width].
  rewrite sequential_size_cons, batch_norm_single_value by reflexivity.
  reflexivity.
Qed.

(** Every case of an input whose height and width are multiples of 16. *)
Lemma forward_frame_size_cases training cin cout feat n a b :
  1 <= n -> 0 <= a -> 0 <= b ->
  forward_frame_size training (UNet_init cin cout feat)
    (mkSize n (default 1 cin) (16 * a) (16 * b))
  = forward_outcome training n (default 1 cout) (default 32 feat) a b.
Proof.
  intros Hn Ha Hb. unfold forward_outcome.
  destruct (a =? 0) eqn:Ea; [apply forward_frame_size_empty; lia|].
  destruct (b =? 0) eqn:Eb; [apply forward_frame_size_empty; lia|].
  cbn [orb].
  destruct training; cbn [andb].
  - destruct (n * a * b =? 1) eqn:E1.
    + assert (n = 1 /\ a = 1 /\ b = 1) as (-> & -> & ->) by nia.
      apply forward_frame_size_single.
    + apply forward_frame_size_ok; first [lia | right; lia].
  - apply forward_frame_size_ok; first [lia | now left].
Qed.

(** ** The steps behind a frame *)

Section FrameSteps.
Context {T : Type}.
Variable call : string -> module -> T -> result T.
Variable cat : T -> T -> result T.

Lemma forward_frame_steps (self : UNet) (x : T) (fr : Frame T) :
  UNet_forward_frame call cat self x = Ok fr -> frame_steps call cat self x fr.
Proof.
  unfold UNet_forward_frame. intros Hf.
  repeat match type of Hf with
         | ?m ≫= _ = Ok _ =>
             let v := fresh "v" in let E := fresh "E" in
             destruct m as [v|] eqn:E; [|discriminate Hf];
             cbn [mbind result_bind] in Hf
         end.
  injection Hf as <-. unfold frame_steps. cbn.
  repeat split; eauto.
Qed.

End FrameSteps.

(** ** The values carry the sizes of the shape rules *)

Section ValueSizes.
Context {V : Type} `{Scalar V}.
Variable st : state_dict V.
Variable training : bool.

Lemma module_apply_size :
  forall (m : module) (prefix : string) (x : Tensor V),
    size <$> module_apply st training prefix m x = module_size training m (size x).
Proof.
  fix IH 1. intros m prefix x.
  destruct m as [cin cout k p bias|nf| |k s|cin cout k s|dim|children];
    try (cbn [module_apply];
         match goal with
         | |- _ <$> (?r ≫= _) = _ => change (module_size training ?m (size x)) with r;
                                      destruct r; reflexivity
         end).
  revert x. induction children as [|[name c] cs IHcs]; intros x.
  - reflexivity.
  - change (module_apply st training prefix (Sequential ((name, c) :: cs)) x)
      with (module_apply st training (prefix +:+ "." +:+ name) c x
              ≫= module_apply st training prefix (Sequential cs)).
    rewrite sequential_size_cons, <- (IH c (prefix +:+ "." +:+ name) x).
    destruct (module_apply st training (prefix +:+ "." +:+ name) c x) as [x'|e];
      [apply IHcs | reflexivity].
Qed.

Lemma torch_cat_size (a b : Tensor V) :
  size <$> torch_cat a b = cat_size (size a) (size b).
Proof. unfold torch_cat. destruct (cat_size (size a) (size b)); reflexivity. Qed.

Ltac bind_step :=
  match goal with
  | |- _ <$> (module_apply st training ?p ?m ?x ≫= _) = _ =>
      rewrite <- (module_apply_size m p x);
      destruct (module_apply st training p m x); [|reflexivity]
  | |- _ <$> (torch_cat ?a ?b ≫= _) = _ =>
      rewrite <- (torch_cat_size a b);
      destruct (torch_cat a b); [|reflexivity]
  end;
  cbn [fmap result_fmap mbind result_bind].

(** The sizes of the values [forward] binds are those the shape rules give. *)
Lemma forward_frame_sizes (self : UNet) (x : Tensor V) :
  Frame_map size <$> forward_frame st training self x
  = forward_frame_size training self (size x).
Proof.
  unfold forward_frame, forward_frame_size, UNet_forward_frame.
  do 23 bind_step. reflexivity.
Qed.

Lemma forward_frame_return (self : UNet) (x : Tensor V) :
  forward st training self x = f_return <$> forward_frame st training self x.
Proof. reflexivity. Qed.

Lemma forward_sizes (self : UNet) (x : Tensor V) :
  size <$> forward st training self x = forward_size training self (size x).
Proof.
  unfold forward, forward_size, UNet_forward.
  pose proof (forward_frame_sizes self x) as Hf.
  unfold forward_frame, forward_frame_size in Hf.
  destruct (UNet_forward_frame (module_apply st training) torch_cat self x) as [fr|e];
    simpl in Hf |- *; rewrite <- Hf; reflexivity.
Qed.

End ValueSizes.

Lemma fmap_Raise {A B : Type} (g : A -> B) (m : result A) (e : exn) :
  g <$> m = Raise e -> m = Raise e.
Proof. destruct m; simpl; intros Hm; [discriminate | congruence]. Qed.

(** ** What a forward pass that returns tells *)

Lemma conv3_size_inv training cin cout bias x y :
  module_size training (Conv2d cin cout 3 1 bias) x = Ok y ->
  channels x = cin /\ 1 <= height x /\ 1 <= width x /\
  y = mkSize (batch x) cout (height x) (width x).
Proof.
  cbn [module_size].
  destruct (channels x =? cin) eqn:Ec; cbn [negb]; [|discriminate].
  destruct (height x + 2 * 1 <? 3) eqn:E1; cbn [orb]; [discriminate|].
  destruct (width x + 2 * 1 <? 3) eqn:E2; [discriminate|].
  intros [= <-]. rewrite !conv_out_same. repeat split; lia.
Qed.

Lemma conv1_size_inv training cin cout bias x y :
  module_size training (Conv2d cin cout 1 0 bias) x = Ok y ->
  channels x = cin /\ 1 <= height x /\ 1 <= width x /\
  y = mkSize (batch x) cout (height x) (width x).
Proof.
  cbn [module_size].
  destruct (channels x =? cin) eqn:Ec; cbn [negb]; [|discriminate].
  destruct (height x + 2 * 0 <? 1) eqn:E1; cbn [orb]; [discriminate|].
  destruct (width x + 2 * 0 <? 1) eqn:E2; [discriminate|].
  intros [= <-]. rewrite !conv_out_pointwise. repeat split; lia.
Qed.

Lemma batch_norm_size_inv training nf x y :
  module_size training (BatchNorm2d nf) x = Ok y ->
  y = x /\ channels x = nf /\
  (training = false \/ batch x * height x * width x <> 1).
Proof.
  cbn [module_size].
  destruct (training && (batch x * height x * width x =? 1)) eqn:Eg; [discriminate|].
  destruct (channels x =? nf) eqn:Ec; cbn [negb]; [|discriminate].
  intros [= <-]. split; [reflexivity|]. split; [lia|].
  destruct training; [right | now left]. cbn [andb] in Eg. lia.
Qed.

Lemma unet_block_size_inv training cin f name x y :
  module_size training (unet_block cin f name) x = Ok y ->
  channels x = cin /\ 1 <= height x /\ 1 <= width x /\
  (training = false \/ batch x * height x * width x <> 1) /\
  y = mkSize (batch x) f (height x) (width x).
Proof.
  unfold unet_block. rewrite sequential_size_cons. intros Hb.
  apply bind_Ok in Hb as (x1 & H1 & Hb). apply conv3_size_inv in H1 as (Hc & Hh & Hw & ->).
  rewrite sequential_size_cons in Hb.
  apply bind_Ok in Hb as (x2 & H2 & Hb). apply batch_norm_size_inv in H2 as (-> & _ & Hg).
  rewrite sequential_size_cons, relu_size in Hb. cbn [mbind result_bind] in Hb.
  rewrite sequential_size_cons in Hb.
  apply bind_Ok in Hb as (x3 & H3 & Hb). apply conv3_size_inv in H3 as (_ & _ & _ & ->).
  rewrite sequential_size_cons in Hb.
  apply bind_Ok in Hb as (x4 & H4 & Hb). apply batch_norm_size_inv in H4 as (-> & _ & _).
  rewrite sequential_size_cons, relu_size in Hb. cbn [mbind result_bind] in Hb.
  rewrite sequential_size_nil in Hb. injection Hb as <-.
  cbn [batch channels height width] in *. repeat split; assumption.
Qed.

Lemma max_pool_size_inv training x y :
  module_size training (MaxPool2d 2 2) x = Ok y ->
  2 <= height x /\ 2 <= width x /\
  y = mkSize (batch x) (channels x) (height x / 2) (width x / 2).
Proof.
  cbn [module_size]. unfold pool_out.
  destruct ((height x - (2 - 1) - 1) / 2 + 1 <? 1) eqn:E1; cbn [orb]; [discriminate|].
  destruct ((width x - (2 - 1) - 1) / 2 + 1 <? 1) eqn:E2; [discriminate|].
  intros [= <-].
  assert (Hh : (height x - (2 - 1) - 1) / 2 + 1 = height x / 2)
    by (Z.to_euclidean_division_equations; lia).
  assert (Hw : (width x - (2 - 1) - 1) / 2 + 1 = width x / 2)
    by (Z.to_euclidean_division_equations; lia).
  rewrite Hh, Hw in *. repeat split; Z.to_euclidean_division_equations; lia.
Qed.

Lemma upconv_size_inv training cin cout x y :
  module_size training (ConvTranspose2d cin cout 2 2) x = Ok y ->
  channels x = cin /\ y = mkSize (batch x) cout (2 * height x) (2 * width x).
Proof.
  cbn [module_size].
  destruct (channels x =? cin) eqn:Ec; cbn [negb]; [|discriminate].
  intros [= <-]. rewrite !convT_out_double. split; [lia | reflexivity].
Qed.

Lemma cat_size_inv a b y :
  cat_size a b = Ok y ->
  batch a = batch b /\ height a = height b /\ width a = width b /\
  y = mkSize (batch a) (channels a + channels b) (height a) (width a).
Proof.
  unfold cat_size.
  destruct (batch a =? batch b) eqn:E1; cbn [andb]; [|discriminate].
  destruct (height a =? height b) eqn:E2; cbn [andb]; [|discriminate].
  destruct (width a =? width b) eqn:E3; [|discriminate].
  intros [= <-]. repeat split; lia.
Qed.

Ltac invert_size_step :=
  match goal with
  | H : module_size _ (unet_block _ _ _) _ = Ok _ |- _ =>
      apply unet_block_size_inv in H;
      let Hc := fresh "Hc" in let Hh := fresh "Hh" in let Hw := fresh "Hw" in
      let Hg := fresh "Hg" in let He := fresh "He" in
      destruct H as (Hc & Hh & Hw & Hg & He)
  | H : module_size _ (MaxPool2d 2 2) _ = Ok _ |- _ =>
      apply max_pool_size_inv in H;
      let Hh := fresh "Hh" in let Hw := fresh "Hw" in let He := fresh "He" in
      destruct H as (Hh & Hw & He)
  | H : module_size _ (ConvTranspose2d _ _ 2 2) _ = Ok _ |- _ =>
      apply upconv_size_inv in H;
      let Hc := fresh "Hc" in let He := fresh "He" in
      destruct H as (Hc & He)
  | H : cat_size _ _ = Ok _ |- _ =>
      apply cat_size_inv in H;
      let Hn := fresh "Hn" in let Hh := fresh "Hh" in let Hw := fresh "Hw" in
      let He := fresh "He" in
      destruct H as (Hn & Hh & Hw & He)
  end.

(** What a forward pass that returns tells about the input size. *)
Lemma forward_frame_size_inv training cin cout feat x fs :
  forward_frame_size training (UNet_init cin cout feat) x = Ok fs ->
  channels x = default 1 cin /\
  exists a b, 1 <= a /\ 1 <= b /\ height x = 16 * a /\ width x = 16 * b /\
              (training = false \/ batch x * a * b <> 1).
Proof.
  intros Hf. unfold forward_frame_size in Hf.
  apply forward_frame_steps in Hf. unfold frame_steps in Hf.
  cbn [UNet_init encoder1 pool1 encoder2 pool2 encoder3 pool3 encoder4 pool4
       bottleneck upconv4 decoder4 upconv3 decoder3 upconv2 decoder2 upconv1
       decoder1 conv softmax] in Hf.
  destruct Hf as (H1 & (p1 & Hp1 & H2) & (p2 & Hp2 & H3) & (p3 & Hp3 & H4)
                  & (p4 & Hp4 & H5) & Hu4 & Hc4 & Hd4 & Hu3 & Hc3 & Hd3
                  & Hu2 & Hc2 & Hd2 & Hu1 & Hc1 & _).
  destruct fs as [e1 e2 e3 e4 bn u4 c4 d4 u3 c3 d3 u2 c2 d2 u1 c1 d1 oc r].
  cbn [f_enc1 f_enc2 f_enc3 f_enc4 f_bottleneck f_up4 f_cat4 f_dec4 f_up3 f_cat3
       f_dec3 f_up2 f_cat2 f_dec2 f_up1 f_cat1 f_dec1] in *.
  repeat (invert_size_step; subst; cbn [batch channels height width] in * ).
  split; [assumption|].
  exists (height x / 2 / 2 / 2 / 2), (width x / 2 / 2 / 2 / 2).
  repeat split; try (Z.to_euclidean_division_equations; lia).
  assumption.
Qed.

(** The size of what the forward pass returns. *)
Lemma forward_Ok_size {V : Type} `{Scalar V} (st : state_dict V) (training : bool)
    (cin cout feat : option Z) (x y : Tensor V) :
  1 <= batch (size x) ->
  forward st training (UNet_init cin cout feat) x = Ok y ->
  size y = mkSize (batch (size x)) (default 1 cout) (height (size x)) (width (size x)) /\
  channels (size x) = default 1 cin /\
  exists a b, 1 <= a /\ 1 <= b /\ height (size x) = 16 * a /\ width (size x) = 16 * b /\
              (training = false \/ batch (size x) * a * b <> 1).
Proof.
  intros Hn Hy.
  pose proof (forward_sizes st training (UNet_init cin cout feat) x) as Hs.
  rewrite Hy in Hs. cbn [fmap result_fmap] in Hs. symmetry in Hs.
  unfold forward_size, UNet_forward in Hs.
  apply fmap_Ok in Hs as (fs & Hfs & Hret).
  pose proof (forward_frame_size_inv training cin cout feat (size x) fs Hfs)
    as (Hc & a & b & Ha & Hb & Hh & Hw & Hg).
  split; [|split; [exact Hc | exists a, b; repeat split; assumption]].
  destruct (size x) as [n c h w] eqn:Hx. cbn [batch channels height width] in *.
  subst c h w.
  pose proof (forward_frame_size_ok training cin cout feat n a b Hn Ha Hb Hg) as Hok.
  unfold forward_frame_size in Hok. rewrite Hok in Hfs. injection Hfs as <-.
  cbn [frame_sizes f_return] in Hret. now rewrite <- Hret.
Qed.

Lemma forward_frame_returns {V : Type} `{Scalar V} (st : state_dict V)
    (training : bool) (cin cout feat : option Z) (n a b : Z) (x : Tensor V) :
  1 <= n -> 1 <= a -> 1 <= b ->
  training = false \/ n * a * b <> 1 ->
  size x = mkSize n (default 1 cin) (16 * a) (16 * b) ->
  exists fr, forward_frame st training (UNet_init cin cout feat) x = Ok fr.
Proof.
  intros Hn Ha Hb Hg Hx.
  pose proof (forward_frame_sizes st training (UNet_init cin cout feat) x) as Hs.
  rewrite Hx, forward_frame_size_ok in Hs by assumption.
  apply fmap_Ok in Hs as (fr & Hfr & _). eauto.
Qed.

Lemma sequential_apply_cons {V : Type} `{Scalar V} (st : state_dict V) training
    prefix name c cs (x : Tensor V) :
  module_apply st training prefix (Sequential ((name, c) :: cs)) x
  = module_apply st training (prefix +:+ "." +:+ name) c x
      ≫= module_apply st training prefix (Sequential cs).
Proof. reflexivity. Qed.

(** ** Parameter count *)

(** The count as a polynomial in the three constructor arguments. *)
Lemma count_parameters_formula (cin cout F : Z) :
  count_parameters (UNet_init (Some cin) (Some cout) (Some F))
  = 7574 * F * F + 9 * cin * F + 199 * F + F * cout + cout.
Proof. unfold count_parameters, numel. cbn. ring. Qed.

(** C4: for the canonical architecture (C_in = 1, C_out = 2, F = 32) the sum
    of the element counts of all trainable weight tensors is the constant
    7762498, over 64 tensors; the notebook's [unet = UNet(1, 2)] is that
    architecture. *)
Theorem parameter_count_canonical :
  count_parameters (UNet_init (Some 1) (Some 2) (Some 32)) = 7762498 /\
  unet = UNet_init (Some 1) (Some 2) (Some 32) /\
  length (UNet_parameters unet) = 64%nat.
Proof. repeat split; vm_compute; reflexivity. Qed.

(** ** Output size of the forward pass *)

(** The forward pass returns on positive multiples of 16. *)
Lemma forward_returns {V : Type} `{Scalar V} (st : state_dict V)
    (training : bool) (cin cout feat : option Z) (n a b : Z) (x : Tensor V) :
  1 <= n -> 1 <= a -> 1 <= b ->
  training = false \/ n * a * b <> 1 ->
  size x = mkSize n (default 1 cin) (16 * a) (16 * b) ->
  exists y, forward st training (UNet_init cin cout feat) x = Ok y /\
            size y = mkSize n (default 1 cout) (16 * a) (16 * b).
Proof.
  intros Hn Ha Hb Hg Hx.
  pose proof (forward_sizes st training (UNet_init cin cout feat) x) as Hs.
  rewrite Hx in Hs. unfold forward_size, UNet_forward in Hs.
  pose proof (forward_frame_size_ok training cin cout feat n a b Hn Ha Hb Hg) as Hf.
  unfold forward_frame_size in Hf.
  rewrite Hf in Hs. cbn [fmap result_fmap frame_sizes f_return] in Hs.
  apply fmap_Ok in Hs as (y & Hy & Hsz). eauto.
Qed.

(** C2 (as amended): for a network built with C_in, C_out, F >= 1 and a batch
    of n >= 1 images with C_in channels whose height and width are positive
    multiples of 16, the forward pass returns an output of n images with
    C_out channels and the same height and width, provided the network is in
    evaluation mode or n * (H/16) * (W/16) is not 1. *)
Theorem forward_output_size {V : Type} `{Scalar V} (st : state_dict V)
    (training : bool) (cin cout F n a b : Z) (x : Tensor V) :
  1 <= cin -> 1 <= cout -> 1 <= F ->
  1 <= n -> 1 <= a -> 1 <= b ->
  training = false \/ n * a * b <> 1 ->
  size x = mkSize n cin (16 * a) (16 * b) ->
  exists y, forward st training (UNet_init (Some cin) (Some cout) (Some F)) x = Ok y /\
            size y = mkSize n cout (16 * a) (16 * b).
Proof.
  intros _ _ _ Hn Ha Hb Hg Hx.
  exact (forward_returns st training (Some cin) (Some cout) (Some F) n a b x
           Hn Ha Hb Hg Hx).
Qed.

Lemma forward_output_size_witness :
  exists y, forward (V := R) (fun _ _ => 0%R) true unet
              (mkTensor (mkSize 1 1 512 512) (fun _ _ _ _ => 0%R)) = Ok y /\
            size y = mkSize 1 2 512 512.
Proof.
  apply (forward_output_size (fun _ _ => 0%R) true 1 2 32 1 32 32);
    first [lia | reflexivity].
Defined.

(** In training mode a single image of 16 x 16 pixels, whose height and width
    are divisible by 16, yields no output: the first batch normalisation of
    the bottleneck sees one value per channel and raises. *)
Lemma forward_single_16x16_training_raises :
  let x : Tensor R := mkTensor (mkSize 1 1 16 16) (fun _ _ _ _ => 0%R) in
  (16 | height (size x)) /\ (16 | width (size x)) /\ channels (size x) = 1 /\
  forward (fun _ _ => 0%R) true unet x = Raise ValueError_single_value.
Proof.
  cbn zeta. split; [exists 1; reflexivity|]. split; [exists 1; reflexivity|].
  split; [reflexivity|].
  apply (fmap_Raise size). rewrite forward_sizes. vm_compute. reflexivity.
Qed.

(** A side that is not a multiple of 16 ends in the size error of the first
    concatenation: 24 is pooled down to 3 and then 1, and upsampled to 2. *)
Lemma forward_24x24_raises :
  forward (V := R) (fun _ _ => 0%R) false unet
    (mkTensor (mkSize 1 1 24 24) (fun _ _ _ _ => 0%R))
  = Raise RuntimeError_cat_sizes.
Proof. apply (fmap_Raise size). rewrite forward_sizes. vm_compute. reflexivity. Qed.

(** An image without rows is refused by the first convolution. *)
Lemma forward_empty_image_raises :
  forward (V := R) (fun _ _ => 0%R) false unet
    (mkTensor (mkSize 1 1 0 16) (fun _ _ _ _ => 0%R))
  = Raise RuntimeError_kernel_size.
Proof. apply (fmap_Raise size). rewrite forward_sizes. vm_compute. reflexivity. Qed.

(** ** Skip connections *)

Lemma forward_outcome_Raise training n co F a b e :
  forward_outcome training n co F a b = Raise e ->
  e = RuntimeError_kernel_size \/ e = ValueError_single_value.
Proof.
  unfold forward_outcome.
  destruct ((a =? 0) || (b =? 0)); [intros [= <-]; now left|].
  destruct (training && (n * a * b =? 1)); [intros [= <-]; now right | discriminate].
Qed.

Lemma forward_outcome_Ok training n co F a b fs :
  forward_outcome training n co F a b = Ok fs -> fs = frame_sizes n co F a b.
Proof.
  unfold forward_outcome.
  destruct ((a =? 0) || (b =? 0)); [discriminate|].
  destruct (training && (n * a * b =? 1)); [discriminate | now intros [= <-]].
Qed.

Lemma forward_frame_outcome {V : Type} `{Scalar V} (st : state_dict V)
    (training : bool) (cin cout feat : option Z) (n a b : Z) (x : Tensor V) :
  1 <= n -> 0 <= a -> 0 <= b ->
  size x = mkSize n (default 1 cin) (16 * a) (16 * b) ->
  Frame_map size <$> forward_frame st training (UNet_init cin cout feat) x
  = forward_outcome training n (default 1 cout) (default 32 feat) a b.
Proof.
  intros Hn Ha Hb Hx.
  now rewrite forward_frame_sizes, Hx, forward_frame_size_cases.
Qed.

(** C8: for a network built with C_in, C_out, F >= 1, on an input whose
    height and width are multiples of 16, each concatenation of the expansion path joins the upsampled tensor of stage i
    with the activation of contracting stage i kept from before its pooling,
    stage 4 first and stage 1 last, and both have the same size; so the
    forward pass raises neither the size error of a concatenation nor a
    channel error, and it completes whenever the image is not empty and
    batch normalisation accepts the bottleneck. *)
Theorem skip_connections_pair_equal_sizes {V : Type} `{Scalar V}
    (st : state_dict V) (training : bool) (cin cout F n a b : Z) (x : Tensor V) :
  1 <= cin -> 1 <= cout -> 1 <= F ->
  1 <= n -> 0 <= a -> 0 <= b ->
  size x = mkSize n cin (16 * a) (16 * b) ->
  let self := UNet_init (Some cin) (Some cout) (Some F) in
  forward st training self x <> Raise RuntimeError_cat_sizes /\
  forward st training self x <> Raise RuntimeError_channels /\
  (1 <= a -> 1 <= b -> training = false \/ n * a * b <> 1 ->
   exists fr, forward_frame st training self x = Ok fr) /\
  (forall fr, forward_frame st training self x = Ok fr ->
     frame_steps (module_apply st training) torch_cat self x fr /\
     Frame_map size fr = frame_sizes n cout F a b /\
     size (f_up4 fr) = size (f_enc4 fr) /\
     size (f_up3 fr) = size (f_enc3 fr) /\
     size (f_up2 fr) = size (f_enc2 fr) /\
     size (f_up1 fr) = size (f_enc1 fr)).
Proof.
  intros _ _ _ Hn Ha Hb Hx self.
  pose proof (forward_frame_outcome st training (Some cin) (Some cout) (Some F)
                n a b x Hn Ha Hb Hx) as Ho.
  change (default 1 (Some cout)) with cout in Ho.
  change (default 32 (Some F)) with F in Ho.
  fold self in Ho.
  assert (Hno : forall e, forward st training self x = Raise e ->
                          e = RuntimeError_kernel_size \/ e = ValueError_single_value).
  { intros e He. rewrite forward_frame_return in He. apply fmap_Raise in He.
    rewrite He in Ho. symmetry in Ho. cbn [fmap result_fmap] in Ho.
    eapply forward_outcome_Raise, Ho. }
  split; [intros He; destruct (Hno _ He); discriminate|].
  split; [intros He; destruct (Hno _ He); discriminate|].
  split.
  - intros Ha1 Hb1 Hg.
    pose proof (forward_frame_sizes st training self x) as Hs.
    rewrite Hx in Hs.
    change (mkSize n cin (16 * a) (16 * b))
      with (mkSize n (default 1 (Some cin)) (16 * a) (16 * b)) in Hs.
    unfold self in Hs. rewrite forward_frame_size_ok in Hs by assumption.
    apply fmap_Ok in Hs as (fr & Hfr & _). eauto.
  - intros fr Hfr. rewrite Hfr in Ho. cbn [fmap result_fmap] in Ho.
    symmetry in Ho. apply forward_outcome_Ok in Ho.
    split; [apply forward_frame_steps, Hfr|].
    split; [exact Ho|].
    pose proof (f_equal f_up4 Ho) as U4. pose proof (f_equal f_enc4 Ho) as E4.
    pose proof (f_equal f_up3 Ho) as U3. pose proof (f_equal f_enc3 Ho) as E3.
    pose proof (f_equal f_up2 Ho) as U2. pose proof (f_equal f_enc2 Ho) as E2.
    pose proof (f_equal f_up1 Ho) as U1. pose proof (f_equal f_enc1 Ho) as E1.
    cbn in U4, E4, U3, E3, U2, E2, U1, E1.
    repeat split; congruence.
Qed.

Lemma skip_connections_pair_equal_sizes_witness :
  let x : Tensor R := mkTensor (mkSize 1 1 512 512) (fun _ _ _ _ => 0%R) in
  let self := UNet_init (Some 1) (Some 2) (Some 32) in
  forward (fun _ _ => 0%R) true self x <> Raise RuntimeError_cat_sizes /\
  exists fr, forward_frame (fun _ _ => 0%R) true self x = Ok fr.
Proof.
  cbn zeta.
  destruct (skip_connections_pair_equal_sizes (V := R) (fun _ _ => 0%R) true 1 2 32
              1 32 32 (mkTensor (mkSize 1 1 512 512) (fun _ _ _ _ => 0%R)))
    as (Hcat & _ & Hex & _); [lia | lia | lia | lia | lia | lia | reflexivity |].
  split; [exact Hcat|]. apply Hex; lia.
Defined.

(** ** The output activation in real arithmetic *)

Lemma Rsum_unfold (n : Z) (f : Z -> R) :
  s_sum n f = foldr (fun k acc => (f k + acc)%R) 0%R (seqZ 0 n).
Proof. reflexivity. Qed.

Lemma foldr_Rplus_nonneg (f : Z -> R) (ks : list Z) :
  (forall k, 0 < f k)%R -> (0 <= foldr (fun k acc => f k + acc) 0 ks)%R.
Proof.
  intros Hf. induction ks as [|k ks IH]; simpl; [lra|].
  specialize (Hf k). lra.
Qed.

Lemma Rsum_pos (n : Z) (f : Z -> R) :
  1 <= n -> (forall k, 0 < f k)%R -> (0 < s_sum n f)%R.
Proof.
  intros Hn Hf. rewrite Rsum_unfold, seqZ_cons by lia. simpl.
  pose proof (foldr_Rplus_nonneg f (seqZ (Z.succ 0) (Z.pred n)) Hf).
  specialize (Hf 0). lra.
Qed.

Lemma Rsum_div (n : Z) (f : Z -> R) (d : R) :
  s_sum n (fun k => (f k / d)%R) = (s_sum n f / d)%R.
Proof.
  rewrite !Rsum_unfold. induction (seqZ 0 n) as [|k ks IH]; simpl.
  - unfold Rdiv. ring.
  - rewrite IH. unfold Rdiv. ring.
Qed.

(** Softmax along the channel axis: positive values that sum to 1. *)
Lemma softmax_channels_distribution (x : Tensor R) (n i j : Z) :
  1 <= channels (size x) ->
  (forall c, 0 < softmax_data 1 x n c i j)%R /\
  s_sum (channels (size x)) (fun c => softmax_data 1 x n c i j) = 1%R.
Proof.
  intros Hc.
  set (m := s_maximum (map (fun k => data x n k i j) (seqZ 0 (channels (size x))))).
  assert (Hs : (0 < s_sum (channels (size x)) (fun k => exp (data x n k i j - m)))%R)
    by (apply Rsum_pos; [exact Hc | intros k; apply exp_pos]).
  assert (Hsoft : forall c, softmax_data 1 x n c i j
                            = (exp (data x n c i j - m)
                               / s_sum (channels (size x))
                                       (fun k => exp (data x n k i j - m)))%R)
    by reflexivity.
  split.
  - intros c. rewrite Hsoft. apply Rdiv_lt_0_compat; [apply exp_pos | exact Hs].
  - change (s_sum (channels (size x))
              (fun c => (exp (data x n c i j - m)
                         / s_sum (channels (size x))
                                 (fun k => exp (data x n k i j - m)))%R) = 1%R).
    rewrite (Rsum_div (channels (size x)) (fun c => exp (data x n c i j - m))).
    field. lra.
Qed.

Lemma conv_apply_channels {V : Type} `{Scalar V} (st : state_dict V) training prefix
    cin cout k p bias (x y : Tensor V) :
  module_apply st training prefix (Conv2d cin cout k p bias) x = Ok y ->
  channels (size y) = cout.
Proof.
  cbn [module_apply module_size].
  destruct (negb (channels (size x) =? cin)); [discriminate|].
  destruct ((height (size x) + 2 * p <? k) || (width (size x) + 2 * p <? k));
    [discriminate|].
  cbn. intros [= <-]. reflexivity.
Qed.

Lemma softmax_apply {V : Type} `{Scalar V} (st : state_dict V) training prefix
    (x y : Tensor V) :
  module_apply st training prefix (Softmax 1) x = Ok y ->
  y = mkTensor (size x) (softmax_data 1 x).
Proof. cbn. now intros [= <-]. Qed.

(** What [forward] returns is the softmax over the channels of the last
    convolution's output, which has [out_channels] channels. *)
Lemma forward_is_softmax {V : Type} `{Scalar V} (st : state_dict V) training
    (cin cout feat : option Z) (x y : Tensor V) :
  forward st training (UNet_init cin cout feat) x = Ok y ->
  exists out_conv : Tensor V,
    channels (size out_conv) = default 1 cout /\
    y = mkTensor (size out_conv) (softmax_data 1 out_conv).
Proof.
  intros Hy. rewrite forward_frame_return in Hy.
  apply fmap_Ok in Hy as (fr & Hfr & <-).
  apply forward_frame_steps in Hfr. unfold frame_steps in Hfr.
  destruct Hfr as (_ & _ & _ & _ & _ & _ & _ & _ & _ & _ & _ & _ & _ & _ & _ & _ & _
                   & Hconv & Hsoft).
  exists (f_out_conv fr). split.
  - eapply conv_apply_channels, Hconv.
  - eapply softmax_apply, Hsoft.
Qed.

(** ** Single-precision arithmetic *)

(** NaN is passed on by every operation of the arithmetic. *)
#[global] Instance single_nan_absorbing : Absorbing (fun v : spec_float => v = S754_nan).
Proof.
  split; intros; subst; cbn [s_add s_sub s_mul s_div s_max s_sqrt s_exp single_scalar];
    try reflexivity;
    match goal with
    | |- _ ?a S754_nan = _ => destruct a as [[]|[]| |[]]; reflexivity
    | |- _ S754_nan ?b = _ => destruct b as [[]|[]| |[]]; reflexivity
    end.
Qed.

Lemma SFsub_diag (v : spec_float) :
  SFsub 24 128 v v = if is_finite v then S754_zero false else S754_nan.
Proof.
  destruct v as [[]|[]| |s m e]; try reflexivity.
  cbn [SFsub is_finite]. rewrite Z.min_id. unfold shl_align. rewrite Z.sub_diag.
  reflexivity.
Qed.

Lemma single_ltb_rank (a b : spec_float) :
  single_ltb a b = true <-> lex_lt (float_rank a) (float_rank b).
Proof.
  unfold single_ltb, SFltb, SFcompare, lex_lt.
  destruct a as [[]|[]| |[] ma ea], b as [[]|[]| |[] mb eb];
    cbn [is_nan negb andb orb float_rank];
    try (split; [discriminate | lia]);
    try (split; [lia | reflexivity]);
    change (Pos.compare_cont Eq ?x ?y) with (Pos.compare x y);
    destruct (Z.compare_spec ea eb); destruct (Pos.compare_spec ma mb);
    cbn [CompOpp]; split; first [discriminate | reflexivity | lia].
Qed.

Lemma SFleb_rank (a b : spec_float) :
  is_nan a = false -> is_nan b = false ->
  SFleb a b = true <-> ~ lex_lt (float_rank b) (float_rank a).
Proof.
  unfold SFleb, SFcompare, lex_lt.
  destruct a as [[]|[]| |[] ma ea], b as [[]|[]| |[] mb eb];
    cbn [is_nan float_rank]; intros Ha Hb; try discriminate;
    try (split; [discriminate | lia]);
    try (split; [lia | reflexivity]);
    change (Pos.compare_cont Eq ?x ?y) with (Pos.compare x y);
    destruct (Z.compare_spec ea eb); destruct (Pos.compare_spec ma mb);
    cbn [CompOpp]; split; first [discriminate | reflexivity | lia].
Qed.

Lemma lex_lt_irrefl (a : Z * Z * Z) : ~ lex_lt a a.
Proof. destruct a as [[a1 a2] a3]. unfold lex_lt. lia. Qed.

Lemma lex_lt_trans (a b c : Z * Z * Z) : lex_lt a b -> lex_lt b c -> lex_lt a c.
Proof.
  destruct a as [[a1 a2] a3], b as [[b1 b2] b3], c as [[c1 c2] c3]. unfold lex_lt. lia.
Qed.

Lemma lex_lt_neg_trans (a b c : Z * Z * Z) :
  ~ lex_lt a b -> ~ lex_lt b c -> ~ lex_lt a c.
Proof.
  destruct a as [[a1 a2] a3], b as [[b1 b2] b3], c as [[c1 c2] c3]. unfold lex_lt. lia.
Qed.

Lemma not_true_iff_false' (b : bool) : b = false <-> ~ b = true.
Proof. destruct b; split; congruence. Qed.

(** The comparison of the arg-max on floats is an order by classes. *)
#[global] Instance single_ltb_order : LtbOrder spec_float.
Proof.
  split; cbn [s_ltb single_scalar].
  - intros a. apply not_true_iff_false'. rewrite single_ltb_rank. apply lex_lt_irrefl.
  - intros a b c. rewrite !single_ltb_rank. apply lex_lt_trans.
  - intros a b c. rewrite !not_true_iff_false', !single_ltb_rank. apply lex_lt_neg_trans.
Qed.

#[global] Instance Rltb_order : LtbOrder R.
Proof.
  split; cbn [s_ltb R_scalar]; unfold Rltb.
  - intros a. destruct (Rlt_dec a a); [lra | reflexivity].
  - intros a b c. destruct (Rlt_dec a b), (Rlt_dec b c), (Rlt_dec a c);
      first [reflexivity | discriminate | lra].
  - intros a b c. destruct (Rlt_dec a b), (Rlt_dec b c), (Rlt_dec a c);
      first [reflexivity | discriminate | lra].
Qed.

(** On floats that are not NaN, [SFleb] is a total preorder. *)
Lemma SFleb_total (a b : spec_float) :
  is_nan a = false -> is_nan b = false -> SFleb a b = false -> SFleb b a = true.
Proof.
  intros Ha Hb. rewrite not_true_iff_false', !SFleb_rank by assumption.
  destruct (float_rank a) as [[a1 a2] a3], (float_rank b) as [[b1 b2] b3].
  unfold lex_lt. lia.
Qed.

Lemma SFleb_trans (a b c : spec_float) :
  is_nan a = false -> is_nan b = false -> is_nan c = false ->
  SFleb a b = true -> SFleb b c = true -> SFleb a c = true.
Proof.
  intros Ha Hb Hc. rewrite !SFleb_rank by assumption.
  intros H1 H2 H3. apply H1. clear H1.
  destruct (float_rank a) as [[a1 a2] a3], (float_rank b) as [[b1 b2] b3],
           (float_rank c) as [[c1 c2] c3].
  unfold lex_lt in *. lia.
Qed.

Lemma SFleb_refl (a : spec_float) : is_nan a = false -> SFleb a a = true.
Proof. intros Ha. rewrite SFleb_rank by assumption. apply lex_lt_irrefl. Qed.

(** Two floats that are not NaN and lie below each other are equal, or they
    are the two zeros. *)
Lemma SFleb_antisym (a b : spec_float) :
  is_nan a = false -> is_nan b = false ->
  SFleb a b = true -> SFleb b a = true ->
  a = b \/ (is_zero a = true /\ is_zero b = true).
Proof.
  intros Ha Hb. rewrite !SFleb_rank by assumption. unfold lex_lt.
  destruct a as [[]|[]| |[] ma ea], b as [[]|[]| |[] mb eb]; try discriminate;
    cbn [float_rank is_zero]; intros H1 H2;
    first [ now left | right; now split | exfalso; lia
          | left; f_equal; lia ].
Qed.

(** ** Invariants of the tensors through the network *)

Lemma leaf_apply_Ok {V : Type} `{Scalar V} (st : state_dict V) training prefix m
    (x y : Tensor V) :
  match m with Sequential _ => False | _ => True end ->
  module_apply st training prefix m x = Ok y ->
  module_size training m (size x) = Ok (size y) /\
  data y = leaf_data st prefix training m x.
Proof.
  intros Hm Hy.
  destruct m; try contradiction; cbn [module_apply] in Hy;
    apply bind_Ok in Hy as (s & Hs & Hy); injection Hy as <-; split; assumption || reflexivity.
Qed.

Lemma torch_cat_Ok {V : Type} `{Scalar V} (a b y : Tensor V) :
  torch_cat a b = Ok y ->
  batch (size a) = batch (size b) /\ height (size a) = height (size b) /\
  width (size a) = width (size b) /\
  size y = mkSize (batch (size a)) (channels (size a) + channels (size b))
             (height (size a)) (width (size a)) /\
  data y = fun n c i j => if c <? channels (size a) then data a n c i j
                          else data b n (c - channels (size a)) i j.
Proof.
  unfold torch_cat. intros Hy. apply bind_Ok in Hy as (s & Hs & Hy).
  injection Hy as <-. apply cat_size_inv in Hs as (Hn & Hh & Hw & ->).
  cbn [size data]. repeat split; assumption.
Qed.

(** An invariant of tensors that the blocks, the poolings, the transposed
    convolutions and the concatenations keep holds of every value [forward]
    binds up to the input of the last convolution. *)
Section FrameInvariant.
Context {V : Type} `{Scalar V}.
Variable st : state_dict V.
Variable training : bool.
Variable P : Tensor V -> Prop.
Hypothesis P_block : forall prefix cin f name x y,
  1 <= cin -> 1 <= f ->
  module_apply st training prefix (unet_block cin f name) x = Ok y -> P x -> P y.
Hypothesis P_pool : forall prefix x y,
  module_apply st training prefix (MaxPool2d 2 2) x = Ok y -> P x -> P y.
Hypothesis P_upconv : forall prefix cin cout x y,
  1 <= cin ->
  module_apply st training prefix (ConvTranspose2d cin cout 2 2) x = Ok y -> P x -> P y.
Hypothesis P_cat : forall a b y, torch_cat a b = Ok y -> P a -> P b -> P y.

Lemma forward_frame_invariant (cin cout feat : option Z) (x : Tensor V)
    (fr : Frame (Tensor V)) :
  1 <= default 1 cin -> 1 <= default 32 feat ->
  forward_frame st training (UNet_init cin cout feat) x = Ok fr ->
  P x -> P (f_dec1 fr).
Proof.
  intros Hci HF Hfr Hx. apply forward_frame_steps in Hfr. unfold frame_steps in Hfr.
  cbn [UNet_init encoder1 pool1 encoder2 pool2 encoder3 pool3 encoder4 pool4
       bottleneck upconv4 decoder4 upconv3 decoder3 upconv2 decoder2 upconv1
       decoder1 conv softmax] in Hfr.
  destruct Hfr as (H1 & (p1 & Hp1 & H2) & (p2 & Hp2 & H3) & (p3 & Hp3 & H4)
                   & (p4 & Hp4 & H5) & Hu4 & Hc4 & Hd4 & Hu3 & Hc3 & Hd3
                   & Hu2 & Hc2 & Hd2 & Hu1 & Hc1 & Hd1 & _).
  assert (E1 : P (f_enc1 fr)) by (eapply P_block; [| |exact H1|exact Hx]; lia).
  assert (E2 : P (f_enc2 fr)).
  { eapply P_block; [| |exact H2|eapply P_pool; eassumption]; lia. }
  assert (E3 : P (f_enc3 fr)).
  { eapply P_block; [| |exact H3|eapply P_pool; eassumption]; lia. }
  assert (E4 : P (f_enc4 fr)).
  { eapply P_block; [| |exact H4|eapply P_pool; eassumption]; lia. }
  assert (B : P (f_bottleneck fr)).
  { eapply P_block; [| |exact H5|eapply P_pool; eassumption]; lia. }
  assert (D4 : P (f_dec4 fr)).
  { eapply P_block; [| |exact Hd4|]; [lia | lia |].
    eapply P_cat; [exact Hc4| |exact E4]. eapply P_upconv; [|exact Hu4|exact B]. lia. }
  assert (D3 : P (f_dec3 fr)).
  { eapply P_block; [| |exact Hd3|]; [lia | lia |].
    eapply P_cat; [exact Hc3| |exact E3]. eapply P_upconv; [|exact Hu3|exact D4]. lia. }
  assert (D2 : P (f_dec2 fr)).
  { eapply P_block; [| |exact Hd2|]; [lia | lia |].
    eapply P_cat; [exact Hc2| |exact E2]. eapply P_upconv; [|exact Hu2|exact D3]. lia. }
  eapply P_block; [| |exact Hd1|]; [lia | lia |].
  eapply P_cat; [exact Hc1| |exact E1]. eapply P_upconv; [|exact Hu1|exact D2]. lia.
Qed.

End FrameInvariant.

(** *** Values that every operation passes on *)

Section PassedOn.
Context {V : Type} `{Scalar V}.
Variable bad : V -> Prop.
Context `{!Absorbing bad}.
Variable st : state_dict V.
Variable training : bool.

Lemma foldr_add_bad (f : Z -> V) (ks : list Z) (k0 : Z) :
  k0 ∈ ks -> bad (f k0) -> bad (foldr (fun k acc => s_add (f k) acc) s_zero ks).
Proof.
  intros Hin Hb. induction ks as [|k ks IH]; [inversion Hin|].
  cbn [foldr]. apply elem_of_cons in Hin as [<- | Hin].
  - now apply bad_add_l.
  - apply bad_add_r. now apply IH.
Qed.

Lemma s_sum_bad (n : Z) (f : Z -> V) (k0 : Z) :
  0 <= k0 < n -> bad (f k0) -> bad (s_sum n f).
Proof.
  intros Hk Hb. unfold s_sum. apply (foldr_add_bad f _ k0); [|exact Hb].
  apply elem_of_seqZ. lia.
Qed.

Lemma foldl_max_bad_acc (l : list V) (acc : V) : bad acc -> bad (foldl s_max acc l).
Proof.
  revert acc. induction l as [|v l IH]; intros acc Hb; [exact Hb|].
  cbn [foldl]. apply IH. now apply bad_max_l.
Qed.

Lemma s_maximum_bad (l : list V) (v : V) : v ∈ l -> bad v -> bad (s_maximum l).
Proof.
  intros Hin Hb. destruct l as [|v0 l]; [inversion Hin|]. cbn [s_maximum].
  apply elem_of_cons in Hin as [<- | Hin]; [now apply foldl_max_bad_acc|].
  revert v0. induction l as [|w l IH]; intros v0; [inversion Hin|].
  cbn [foldl]. apply elem_of_cons in Hin as [<- | Hin].
  - apply foldl_max_bad_acc. now apply bad_max_r.
  - now apply IH.
Qed.

Lemma padded_within (x : Tensor V) (n c i j : Z) :
  0 <= i < height (size x) -> 0 <= j < width (size x) ->
  padded x n c i j = data x n c i j.
Proof.
  intros Hi Hj. unfold padded.
  destruct (0 <=? i) eqn:E1; [|lia]. destruct (i <? height (size x)) eqn:E2; [|lia].
  destruct (0 <=? j) eqn:E3; [|lia]. destruct (j <? width (size x)) eqn:E4; [|lia].
  reflexivity.
Qed.

Lemma conv2d_data_bad prefix cin k p bias (x : Tensor V) (n o i j : Z) :
  1 <= cin -> 0 <= p < k -> channels (size x) = cin ->
  all_within bad x ->
  0 <= n < batch (size x) -> 0 <= i < height (size x) -> 0 <= j < width (size x) ->
  bad (conv2d_data st prefix cin k p bias x n o i j).
Proof.
  intros Hci Hp Hc Hx Hn Hi Hj. unfold conv2d_data. apply bad_add_l.
  apply (s_sum_bad _ _ 0); [lia|]. apply (s_sum_bad _ _ p); [lia|].
  apply (s_sum_bad _ _ p); [lia|]. apply bad_mul_r.
  replace (i + p - p) with i by lia. replace (j + p - p) with j by lia.
  rewrite padded_within by assumption. apply Hx; lia.
Qed.

Lemma conv3_passes_on prefix cin cout bias (x y : Tensor V) :
  1 <= cin ->
  module_apply st training prefix (Conv2d cin cout 3 1 bias) x = Ok y ->
  all_within bad x -> all_within bad y.
Proof.
  intros Hci Hy Hx. apply leaf_apply_Ok in Hy as [Hs Hd]; [|exact I].
  apply conv3_size_inv in Hs as (Hc & _ & _ & Hs).
  intros n c i j. rewrite Hs, Hd. cbn [batch channels height width leaf_data].
  intros Hn _ Hi Hj. apply conv2d_data_bad; assumption || lia.
Qed.

Lemma conv1_passes_on prefix cin cout bias (x y : Tensor V) :
  1 <= cin ->
  module_apply st training prefix (Conv2d cin cout 1 0 bias) x = Ok y ->
  all_within bad x -> all_within bad y.
Proof.
  intros Hci Hy Hx. apply leaf_apply_Ok in Hy as [Hs Hd]; [|exact I].
  apply conv1_size_inv in Hs as (Hc & _ & _ & Hs).
  intros n c i j. rewrite Hs, Hd. cbn [batch channels height width leaf_data].
  intros Hn _ Hi Hj. apply conv2d_data_bad; assumption || lia.
Qed.

Lemma batch_norm_passes_on prefix nf (x y : Tensor V) :
  module_apply st training prefix (BatchNorm2d nf) x = Ok y ->
  all_within bad x -> all_within bad y.
Proof.
  intros Hy Hx. apply leaf_apply_Ok in Hy as [Hs Hd]; [|exact I].
  apply batch_norm_size_inv in Hs as (Hs & _ & _).
  intros n c i j. rewrite Hs, Hd. cbn [leaf_data]. intros Hn Hc Hi Hj.
  unfold batch_norm_data. apply bad_add_l, bad_mul_l, bad_div_l, bad_sub_l.
  now apply Hx.
Qed.

Lemma relu_passes_on prefix (x y : Tensor V) :
  module_apply st training prefix ReLU x = Ok y ->
  all_within bad x -> all_within bad y.
Proof.
  intros Hy Hx. apply leaf_apply_Ok in Hy as [Hs Hd]; [|exact I].
  rewrite relu_size in Hs. injection Hs as Hs.
  intros n c i j. rewrite <- Hs, Hd. cbn [leaf_data]. intros Hn Hc Hi Hj.
  unfold relu_data. apply bad_max_l. now apply Hx.
Qed.

Lemma unet_block_passes_on prefix cin f name (x y : Tensor V) :
  1 <= cin -> 1 <= f ->
  module_apply st training prefix (unet_block cin f name) x = Ok y ->
  all_within bad x -> all_within bad y.
Proof.
  intros Hci Hf Hy Hx. unfold unet_block in Hy.
  rewrite sequential_apply_cons in Hy. apply bind_Ok in Hy as (x1 & H1 & Hy).
  rewrite sequential_apply_cons in Hy. apply bind_Ok in Hy as (x2 & H2 & Hy).
  rewrite sequential_apply_cons in Hy. apply bind_Ok in Hy as (x3 & H3 & Hy).
  rewrite sequential_apply_cons in Hy. apply bind_Ok in Hy as (x4 & H4 & Hy).
  rewrite sequential_apply_cons in Hy. apply bind_Ok in Hy as (x5 & H5 & Hy).
  rewrite sequential_apply_cons in Hy. apply bind_Ok in Hy as (x6 & H6 & Hy).
  cbn in Hy. injection Hy as <-.
  eapply relu_passes_on; [exact H6|]. eapply batch_norm_passes_on; [exact H5|].
  eapply conv3_passes_on; [exact Hf | exact H4|].
  eapply relu_passes_on; [exact H3|]. eapply batch_norm_passes_on; [exact H2|].
  eapply conv3_passes_on; [exact Hci | exact H1 | exact Hx].
Qed.

Lemma max_pool_passes_on prefix (x y : Tensor V) :
  module_apply st training prefix (MaxPool2d 2 2) x = Ok y ->
  all_within bad x -> all_within bad y.
Proof.
  intros Hy Hx. apply leaf_apply_Ok in Hy as [Hs Hd]; [|exact I].
  apply max_pool_size_inv in Hs as (Hh & Hw & Hs).
  intros n c i j. rewrite Hs, Hd. cbn [batch channels height width leaf_data].
  intros Hn Hc Hi Hj. unfold max_pool_data.
  apply (s_maximum_bad _ (data x n c (i * 2 + 0) (j * 2 + 0))).
  - change (seqZ 0 2) with [0; 1]. cbn [mbind list_bind app]. left.
  - apply Hx; try assumption; Z.to_euclidean_division_equations; lia.
Qed.

Lemma upconv_passes_on prefix cin cout (x y : Tensor V) :
  1 <= cin ->
  module_apply st training prefix (ConvTranspose2d cin cout 2 2) x = Ok y ->
  all_within bad x -> all_within bad y.
Proof.
  intros Hci Hy Hx. apply leaf_apply_Ok in Hy as [Hs Hd]; [|exact I].
  apply upconv_size_inv in Hs as (Hc & Hs).
  intros n c i j. rewrite Hs, Hd. cbn [batch channels height width leaf_data].
  intros Hn _ Hi Hj. unfold conv_transpose_data. apply bad_add_l.
  apply (s_sum_bad _ _ 0); [lia|].
  apply (s_sum_bad _ _ (i mod 2)); [Z.to_euclidean_division_equations; lia|].
  apply (s_sum_bad _ _ (j mod 2)); [Z.to_euclidean_division_equations; lia|].
  replace ((i - i mod 2) mod 2 =? 0) with true
    by (symmetry; apply Z.eqb_eq; Z.to_euclidean_division_equations; lia).
  replace ((j - j mod 2) mod 2 =? 0) with true
    by (symmetry; apply Z.eqb_eq; Z.to_euclidean_division_equations; lia).
  cbn [andb]. apply bad_mul_l.
  rewrite padded_within by (Z.to_euclidean_division_equations; lia).
  apply Hx; try lia; Z.to_euclidean_division_equations; lia.
Qed.

Lemma torch_cat_passes_on (a b y : Tensor V) :
  torch_cat a b = Ok y -> all_within bad a -> all_within bad b -> all_within bad y.
Proof.
  intros Hy Ha Hb. apply torch_cat_Ok in Hy as (Hn & Hh & Hw & Hs & Hd).
  intros n c i j. rewrite Hs, Hd. cbn [batch channels height width].
  intros Hn' Hc Hi Hj.
  destruct (c <? channels (size a)) eqn:E; [apply Ha | apply Hb]; lia.
Qed.

(** A softmax over the channels passes on to every channel of a pixel what
    one of its channels holds. *)
Lemma softmax_pixel_bad (x : Tensor V) (n c c' i j : Z) :
  0 <= c' < channels (size x) -> bad (data x n c' i j) ->
  bad (softmax_data 1 x n c i j).
Proof.
  intros Hc Hb. unfold softmax_data.
  change (wrap_dim 1) with 1. cbn [extent along].
  apply bad_div_l, bad_exp, bad_sub_r.
  apply (s_maximum_bad _ (data x n c' i j)); [|exact Hb].
  apply (list_elem_of_fmap_2 (fun k => data x n k i j)). apply elem_of_seqZ. lia.
Qed.

(** From the input to the output of the network. *)
Lemma forward_frame_passes_on (cin cout feat : option Z) (x : Tensor V)
    (fr : Frame (Tensor V)) :
  1 <= default 1 cin -> 1 <= default 32 feat ->
  forward_frame st training (UNet_init cin cout feat) x = Ok fr ->
  all_within bad x ->
  all_within bad (f_out_conv fr) /\ all_within bad (f_return fr).
Proof.
  intros Hci HF Hfr Hx.
  assert (Hd : all_within bad (f_dec1 fr)).
  { apply (forward_frame_invariant st training (all_within bad)) with cin cout feat x;
      try assumption.
    - exact unet_block_passes_on.
    - exact max_pool_passes_on.
    - exact upconv_passes_on.
    - exact torch_cat_passes_on. }
  apply forward_frame_steps in Hfr. unfold frame_steps in Hfr.
  destruct Hfr as (_ & _ & _ & _ & _ & _ & _ & _ & _ & _ & _ & _ & _ & _ & _ & _ & _
                   & Hconv & Hsoft).
  cbn [UNet_init conv softmax] in Hconv, Hsoft.
  assert (Ho : all_within bad (f_out_conv fr))
    by (eapply conv1_passes_on; [exact HF | exact Hconv | exact Hd]).
  split; [exact Ho|].
  apply softmax_apply in Hsoft. rewrite Hsoft. intros n c i j. cbn [size data].
  intros Hn Hc Hi Hj. apply (softmax_pixel_bad _ n c c i j Hc). now apply Ho.
Qed.

End PassedOn.

(** *** Zeros under zero weights *)

Section Zeros.
Abbreviation zero := (S754_zero false).
Abbreviation zeros := (all_within (fun v : spec_float => v = zero)).

Lemma single_sum_zero (n : Z) (f : Z -> spec_float) :
  (forall k, 0 <= k < n -> f k = zero) -> s_sum n f = zero.
Proof.
  intros Hf. unfold s_sum.
  assert (Hks : forall k, k ∈ seqZ 0 n -> f k = zero).
  { intros k Hk. apply elem_of_seqZ in Hk. apply Hf. lia. }
  induction (seqZ 0 n) as [|k ks IH]; [reflexivity|].
  cbn [foldr]. rewrite Hks by left. rewrite IH; [reflexivity|].
  intros k' Hk'. apply Hks. now right.
Qed.

Lemma padded_zero (x : Tensor spec_float) (n c i j : Z) :
  zeros x -> 0 <= n < batch (size x) -> 0 <= c < channels (size x) ->
  padded x n c i j = zero.
Proof.
  intros Hx Hn Hc. unfold padded.
  destruct ((0 <=? i) && (i <? height (size x)) && (0 <=? j) && (j <? width (size x)))
    eqn:E; [|reflexivity].
  apply Hx; lia.
Qed.

Lemma conv2d_data_zero prefix cin k p bias (x : Tensor spec_float) (n o i j : Z) :
  channels (size x) = cin -> zeros x -> 0 <= n < batch (size x) ->
  conv2d_data zero_weights prefix cin k p bias x n o i j = zero.
Proof.
  intros Hc Hx Hn. unfold conv2d_data.
  rewrite single_sum_zero; [destruct bias; reflexivity|].
  intros c Hci. apply single_sum_zero. intros a _. apply single_sum_zero. intros b _.
  rewrite padded_zero by (assumption || lia). reflexivity.
Qed.

Lemma conv3_zero prefix cin cout bias (x y : Tensor spec_float) :
  module_apply zero_weights false prefix (Conv2d cin cout 3 1 bias) x = Ok y ->
  zeros x -> zeros y.
Proof.
  intros Hy Hx. apply leaf_apply_Ok in Hy as [Hs Hd]; [|exact I].
  apply conv3_size_inv in Hs as (Hc & _ & _ & Hs).
  intros n c i j. rewrite Hs, Hd. cbn [batch channels height width leaf_data].
  intros Hn _ _ _. now apply conv2d_data_zero.
Qed.

Lemma conv1_zero prefix cin cout bias (x y : Tensor spec_float) :
  module_apply zero_weights false prefix (Conv2d cin cout 1 0 bias) x = Ok y ->
  zeros x -> zeros y.
Proof.
  intros Hy Hx. apply leaf_apply_Ok in Hy as [Hs Hd]; [|exact I].
  apply conv1_size_inv in Hs as (Hc & _ & _ & Hs).
  intros n c i j. rewrite Hs, Hd. cbn [batch channels height width leaf_data].
  intros Hn _ _ _. now apply conv2d_data_zero.
Qed.

Lemma batch_norm_zero prefix nf (x y : Tensor spec_float) :
  module_apply zero_weights false prefix (BatchNorm2d nf) x = Ok y ->
  zeros x -> zeros y.
Proof.
  intros Hy Hx. apply leaf_apply_Ok in Hy as [Hs Hd]; [|exact I].
  apply batch_norm_size_inv in Hs as (Hs & _ & _).
  intros n c i j. rewrite Hs, Hd. cbn [leaf_data]. intros Hn Hc Hi Hj.
  unfold batch_norm_data. rewrite (Hx n c i j) by assumption.
  vm_compute. reflexivity.
Qed.

Lemma relu_zero prefix (x y : Tensor spec_float) :
  module_apply zero_weights false prefix ReLU x = Ok y -> zeros x -> zeros y.
Proof.
  intros Hy Hx. apply leaf_apply_Ok in Hy as [Hs Hd]; [|exact I].
  rewrite relu_size in Hs. injection Hs as Hs.
  intros n c i j. rewrite <- Hs, Hd. cbn [leaf_data]. intros Hn Hc Hi Hj.
  unfold relu_data. now rewrite (Hx n c i j).
Qed.

Lemma unet_block_zero prefix cin f name (x y : Tensor spec_float) :
  module_apply zero_weights false prefix (unet_block cin f name) x = Ok y ->
  zeros x -> zeros y.
Proof.
  intros Hy Hx. unfold unet_block in Hy.
  rewrite sequential_apply_cons in Hy. apply bind_Ok in Hy as (x1 & H1 & Hy).
  rewrite sequential_apply_cons in Hy. apply bind_Ok in Hy as (x2 & H2 & Hy).
  rewrite sequential_apply_cons in Hy. apply bind_Ok in Hy as (x3 & H3 & Hy).
  rewrite sequential_apply_cons in Hy. apply bind_Ok in Hy as (x4 & H4 & Hy).
  rewrite sequential_apply_cons in Hy. apply bind_Ok in Hy as (x5 & H5 & Hy).
  rewrite sequential_apply_cons in Hy. apply bind_Ok in Hy as (x6 & H6 & Hy).
  cbn in Hy. injection Hy as <-.
  eapply relu_zero; [exact H6|]. eapply batch_norm_zero; [exact H5|].
  eapply conv3_zero; [exact H4|].
  eapply relu_zero; [exact H3|]. eapply batch_norm_zero; [exact H2|].
  eapply conv3_zero; [exact H1 | exact Hx].
Qed.

Lemma max_pool_zero prefix (x y : Tensor spec_float) :
  module_apply zero_weights false prefix (MaxPool2d 2 2) x = Ok y -> zeros x -> zeros y.
Proof.
  intros Hy Hx. apply leaf_apply_Ok in Hy as [Hs Hd]; [|exact I].
  apply max_pool_size_inv in Hs as (Hh & Hw & Hs).
  intros n c i j. rewrite Hs, Hd. cbn [batch channels height width leaf_data].
  intros Hn Hc Hi Hj. unfold max_pool_data.
  change (seqZ 0 2) with [0; 1]. cbn [mbind list_bind app].
  rewrite !Hx by (try assumption; Z.to_euclidean_division_equations; lia).
  reflexivity.
Qed.

Lemma upconv_zero prefix cin cout (x y : Tensor spec_float) :
  module_apply zero_weights false prefix (ConvTranspose2d cin cout 2 2) x = Ok y ->
  zeros x -> zeros y.
Proof.
  intros Hy Hx. apply leaf_apply_Ok in Hy as [Hs Hd]; [|exact I].
  apply upconv_size_inv in Hs as (Hc & Hs).
  intros n c i j. rewrite Hs, Hd. cbn [batch channels height width leaf_data].
  intros Hn _ _ _. unfold conv_transpose_data.
  rewrite single_sum_zero; [reflexivity|].
  intros c' Hc'. apply single_sum_zero. intros a _. apply single_sum_zero. intros b _.
  destruct (((i - a) mod 2 =? 0) && ((j - b) mod 2 =? 0)); [|reflexivity].
  rewrite padded_zero by (assumption || lia). reflexivity.
Qed.

Lemma torch_cat_zero (a b y : Tensor spec_float) :
  torch_cat a b = Ok y -> zeros a -> zeros b -> zeros y.
Proof. apply (torch_cat_passes_on (fun v => v = zero)). Qed.

End Zeros.

(** ** The output activation *)

Lemma forward_frame_Ok {V : Type} `{Scalar V} (st : state_dict V) training self
    (x : Tensor V) (fr : Frame (Tensor V)) :
  forward_frame st training self x = Ok fr ->
  forward st training self x = Ok (f_return fr).
Proof. intros Hfr. rewrite forward_frame_return, Hfr. reflexivity. Qed.

Lemma forward_frame_last_steps {V : Type} `{Scalar V} (st : state_dict V) training
    (cin cout feat : option Z) (x : Tensor V) (fr : Frame (Tensor V)) :
  forward_frame st training (UNet_init cin cout feat) x = Ok fr ->
  module_apply st training "conv" (Conv2d (default 32 feat) (default 1 cout) 1 0 true)
    (f_dec1 fr) = Ok (f_out_conv fr) /\
  channels (size (f_out_conv fr)) = default 1 cout /\
  f_return fr = mkTensor (size (f_out_conv fr)) (softmax_data 1 (f_out_conv fr)).
Proof.
  intros Hfr. apply forward_frame_steps in Hfr. unfold frame_steps in Hfr.
  destruct Hfr as (_ & _ & _ & _ & _ & _ & _ & _ & _ & _ & _ & _ & _ & _ & _ & _ & _
                   & Hconv & Hsoft).
  cbn [UNet_init conv softmax] in Hconv, Hsoft.
  split; [exact Hconv|]. split.
  - eapply conv_apply_channels, Hconv.
  - eapply softmax_apply, Hsoft.
Qed.

(** Softmax over a single channel, in single precision and in real
    arithmetic. *)
Lemma softmax_single_channel (x : Tensor spec_float) (n i j : Z) :
  channels (size x) = 1 ->
  softmax_data 1 x n 0 i j
  = if is_finite (data x n 0 i j) then single_one else S754_nan.
Proof.
  intros Hc.
  assert (E : softmax_data 1 x n 0 i j
              = let d := SFsub 24 128 (data x n 0 i j) (data x n 0 i j) in
                SFdiv 24 128 (single_exp d)
                  (SFadd 24 128 (single_exp d) (S754_zero false))).
  { unfold softmax_data, s_sum. change (wrap_dim 1) with 1. cbn [extent].
    rewrite Hc. reflexivity. }
  rewrite E. cbn zeta. rewrite SFsub_diag.
  destruct (is_finite (data x n 0 i j)); reflexivity.
Qed.

Lemma softmax_single_channel_real (x : Tensor R) (n i j : Z) :
  channels (size x) = 1 -> softmax_data 1 x n 0 i j = 1%R.
Proof.
  intros Hc.
  pose proof (softmax_channels_distribution x n i j ltac:(lia)) as [_ Hsum].
  rewrite Hc, Rsum_unfold in Hsum. change (seqZ 0 1) with [0] in Hsum.
  cbn [foldr] in Hsum. lra.
Qed.





(** With zero weights, an image of zeros reaches the last convolution as
    zeros. *)
Lemma zero_image_logits (cin cout feat : option Z) (x : Tensor spec_float)
    (fr : Frame (Tensor spec_float)) :
  1 <= default 1 cin -> 1 <= default 32 feat ->
  forward_frame zero_weights false (UNet_init cin cout feat) x = Ok fr ->
  all_within (fun v => v = S754_zero false) x ->
  all_within (fun v => v = S754_zero false) (f_out_conv fr).
Proof.
  intros Hci HF Hfr Hx.
  assert (Hd : all_within (fun v => v = S754_zero false) (f_dec1 fr)).
  { apply (forward_frame_invariant zero_weights false
             (all_within (fun v => v = S754_zero false))) with cin cout feat x;
      try assumption.
    - intros prefix ci f name x0 y0 _ _. apply unet_block_zero.
    - exact max_pool_zero.
    - intros prefix ci co x0 y0 _. apply upconv_zero.
    - exact torch_cat_zero. }
  pose proof (forward_frame_last_steps _ _ _ _ _ _ _ Hfr) as (Hconv & _ & _).
  eapply conv1_zero; [exact Hconv | exact Hd].
Qed.



(** ** Slice normalisation *)

Lemma slice_z_in_range {V : Type} (a : Array3 V) (X Y D k : Z) :
  shape3 a = (X, Y, D) -> 0 <= k < D ->
  slice_z a k = Ok (mkArray2 (X, Y) (fun x y => item3 a x y k)).
Proof.
  intros Hs Hk. unfold slice_z. rewrite Hs.
  destruct (k <? 0) eqn:E; [lia|].
  destruct (0 <=? k) eqn:E1; [|lia]. destruct (k <? D) eqn:E2; [|lia]. reflexivity.
Qed.

Lemma slice_z_out_of_range {V : Type} (a : Array3 V) (X Y D k : Z) :
  shape3 a = (X, Y, D) -> 0 <= D <= k ->
  slice_z a k = Raise IndexError_index.
Proof.
  intros Hs Hk. unfold slice_z. rewrite Hs.
  destruct (k <? 0) eqn:E; [lia|].
  destruct (k <? D) eqn:E2; [lia|]. now rewrite andb_false_r.
Qed.

Lemma elements2_nonempty {V : Type} (a : Array2 V) (X Y : Z) :
  shape2 a = (X, Y) -> 1 <= X -> 1 <= Y ->
  exists l, elements2 a = item2 a 0 0 :: l.
Proof.
  intros Hs HX HY. unfold elements2. rewrite Hs. cbn [fst snd].
  rewrite (seqZ_cons 0 X) by lia. cbn [mbind list_bind].
  rewrite (seqZ_cons 0 Y) by lia. cbn [mbind list_bind app]. eauto.
Qed.

Lemma elements2_Forall {V : Type} (P : V -> Prop) (a : Array2 V) (X Y : Z) :
  shape2 a = (X, Y) ->
  (forall x y, 0 <= x < X -> 0 <= y < Y -> P (item2 a x y)) ->
  Forall P (elements2 a).
Proof.
  intros Hs HP. apply Forall_forall. intros v Hv.
  unfold elements2 in Hv. rewrite Hs in Hv. cbn [fst snd] in Hv.
  apply list_elem_of_bind in Hv as (x & Hv & Hx).
  apply list_elem_of_bind in Hv as (y & Hv & Hy).
  apply elem_of_seqZ in Hx. apply elem_of_seqZ in Hy.
  apply list_elem_of_singleton in Hv as ->. apply HP; lia.
Qed.

Lemma np_maximum_zero (a b : spec_float) :
  is_zero a = true -> is_zero b = true -> np_maximum a b = a.
Proof. destruct a, b; try discriminate. reflexivity. Qed.

Lemma foldl_np_maximum_zero (l : list spec_float) (v : spec_float) :
  is_zero v = true -> Forall (fun e => is_zero e = true) l ->
  foldl np_maximum v l = v.
Proof.
  intros Hv Hl. revert v Hv. induction Hl as [|e l He Hl IH]; intros v Hv;
    [reflexivity|].
  cbn [foldl]. rewrite np_maximum_zero by assumption. now apply IH.
Qed.

(** The maximum of a non-empty slice of zeros is a zero. *)
Lemma np_max_zero (a : Array2 spec_float) (X Y : Z) :
  shape2 a = (X, Y) -> 1 <= X -> 1 <= Y ->
  (forall x y, 0 <= x < X -> 0 <= y < Y -> is_zero (item2 a x y) = true) ->
  exists m, np_max a = Ok m /\ is_zero m = true.
Proof.
  intros Hs HX HY Hz.
  destruct (elements2_nonempty a X Y Hs HX HY) as (l & Hl).
  pose proof (elements2_Forall (fun e => is_zero e = true) a X Y Hs Hz) as Hall.
  unfold np_max. rewrite Hl in Hall |- *. inversion Hall as [|? ? H0 Hrest]; subst.
  rewrite foldl_np_maximum_zero by assumption. eauto.
Qed.

Lemma single_div_zero_zero (a b : spec_float) :
  is_zero a = true -> is_zero b = true ->
  single_div (astype_single a) (astype_single b) = S754_nan.
Proof. destruct a, b; try discriminate. reflexivity. Qed.

(** Normalising a non-empty slice of zeros raises nothing and yields NaN at
    every position. *)
Lemma normalize_zero_slice (vol : Array3 spec_float) (X Y D k : Z) :
  shape3 vol = (X, Y, D) -> 1 <= X -> 1 <= Y -> 0 <= k < D ->
  (forall x y, 0 <= x < X -> 0 <= y < Y -> is_zero (item3 vol x y k) = true) ->
  exists slc, normalize_slice vol k = Ok slc /\ shape2 slc = (X, Y) /\
              forall x y, 0 <= x < X -> 0 <= y < Y -> item2 slc x y = S754_nan.
Proof.
  intros Hs HX HY Hk Hz. unfold normalize_slice.
  rewrite (slice_z_in_range vol X Y D k Hs Hk). cbn [mbind result_bind].
  destruct (np_max_zero (mkArray2 (X, Y) (fun x y => item3 vol x y k)) X Y)
    as (m & Hm & Hmz); [reflexivity | assumption | assumption | exact Hz |].
  rewrite Hm. cbn [mbind result_bind mret result_ret].
  eexists. split; [reflexivity|]. split; [reflexivity|].
  intros x y Hx Hy. cbn [item2 shape2]. apply single_div_zero_zero; auto.
Qed.

Lemma slice_z_wrap {V : Type} (a : Array3 V) (X0 Y0 D k : Z) :
  shape3 a = (X0, Y0, D) -> - D <= k < D ->
  slice_z a k
  = Ok (mkArray2 (X0, Y0) (fun x y => item3 a x y (if k <? 0 then k + D else k))).
Proof.
  intros Hs Hk. unfold slice_z. rewrite Hs.
  destruct (k <? 0) eqn:E.
  - destruct (0 <=? k + D) eqn:E1; [|lia]. destruct (k + D <? D) eqn:E2; [|lia].
    reflexivity.
  - destruct (0 <=? k) eqn:E1; [|lia]. destruct (k <? D) eqn:E2; [|lia]. reflexivity.
Qed.

Lemma slice_z_outside {V : Type} (a : Array3 V) (X0 Y0 D k : Z) :
  shape3 a = (X0, Y0, D) -> 0 <= D -> k < - D \/ D <= k ->
  slice_z a k = Raise IndexError_index.
Proof.
  intros Hs HD Hk. unfold slice_z. rewrite Hs.
  destruct (k <? 0) eqn:E.
  - destruct (0 <=? k + D) eqn:E1; [lia | reflexivity].
  - destruct (k <? D) eqn:E2; [lia|]. now rewrite andb_false_r.
Qed.

Lemma bind_nil_r {A B : Type} (l : list A) : l ≫= (fun _ => @nil B) = [].
Proof. induction l as [|a l IH]; [reflexivity | exact IH]. Qed.

Lemma elements2_empty {V : Type} (a : Array2 V) (X0 Y0 : Z) :
  shape2 a = (X0, Y0) -> X0 <= 0 \/ Y0 <= 0 -> elements2 a = [].
Proof.
  intros Hs [HX | HY]; unfold elements2; rewrite Hs; cbn [fst snd].
  - rewrite (seqZ_nil 0 X0) by exact HX. reflexivity.
  - rewrite (seqZ_nil 0 Y0) by exact HY. apply bind_nil_r.
Qed.

Lemma np_maximum_nan_l (b : spec_float) : np_maximum S754_nan b = S754_nan.
Proof. destruct b; reflexivity. Qed.

Lemma np_maximum_nan_r (a : spec_float) : np_maximum a S754_nan = S754_nan.
Proof. destruct a; reflexivity. Qed.

Lemma foldl_np_maximum_nan (l : list spec_float) :
  foldl np_maximum S754_nan l = S754_nan.
Proof.
  induction l as [|e l IH]; [reflexivity|]. cbn [foldl]. now rewrite np_maximum_nan_l.
Qed.

Lemma foldl_np_maximum_nan_in (l : list spec_float) (acc : spec_float) :
  S754_nan ∈ l -> foldl np_maximum acc l = S754_nan.
Proof.
  revert acc. induction l as [|e l IH]; intros acc Hin; [inversion Hin|].
  cbn [foldl]. apply elem_of_cons in Hin as [<- | Hin].
  - rewrite np_maximum_nan_r. apply foldl_np_maximum_nan.
  - now apply IH.
Qed.

Lemma elements2_elem_of {V : Type} (a : Array2 V) (X0 Y0 x y : Z) :
  shape2 a = (X0, Y0) -> 0 <= x < X0 -> 0 <= y < Y0 ->
  item2 a x y ∈ elements2 a.
Proof.
  intros Hs Hx Hy. unfold elements2. rewrite Hs. cbn [fst snd].
  apply list_elem_of_bind. exists x. split; [|apply elem_of_seqZ; lia].
  apply list_elem_of_bind. exists y. split; [|apply elem_of_seqZ; lia].
  apply list_elem_of_singleton. reflexivity.
Qed.

Lemma single_div_nan (a : spec_float) : single_div a S754_nan = S754_nan.
Proof. destruct a; reflexivity. Qed.

(** *** The maximum of a slice *)

Lemma np_maximum_not_nan (a b : spec_float) :
  is_nan a = false -> np_maximum a b = if SFleb b a then a else b.
Proof. intros Ha. unfold np_maximum. now rewrite Ha, orb_false_r. Qed.

Lemma foldl_np_maximum_spec (l : list spec_float) (acc : spec_float) :
  is_nan acc = false -> Forall (fun e => is_nan e = false) l ->
  let r := foldl np_maximum acc l in
  (r = acc \/ r ∈ l) /\ is_nan r = false /\ SFleb acc r = true /\
  Forall (fun e => SFleb e r = true) l.
Proof.
  intros Hacc Hl. revert acc Hacc. cbn zeta.
  induction Hl as [|e l He Hl IH]; intros acc Hacc; cbn [foldl].
  - split; [now left|]. split; [exact Hacc|]. split; [now apply SFleb_refl | constructor].
  - rewrite np_maximum_not_nan by exact Hacc.
    destruct (SFleb e acc) eqn:E.
    + destruct (IH acc Hacc) as (Hin & Hr & Hle & Hall).
      split; [destruct Hin; [now left | right; now right]|].
      split; [exact Hr|]. split; [exact Hle|].
      constructor; [|exact Hall]. now apply (SFleb_trans e acc).
    + destruct (IH e He) as (Hin & Hr & Hle & Hall).
      split; [right; destruct Hin as [-> | Hin]; [now left | now right]|].
      split; [exact Hr|]. split; [|constructor; assumption].
      apply (SFleb_trans acc e); try assumption. now apply SFleb_total.
Qed.

Lemma elements2_elem_of_inv {V : Type} (a : Array2 V) (X0 Y0 : Z) (v : V) :
  shape2 a = (X0, Y0) -> v ∈ elements2 a ->
  exists x y, 0 <= x < X0 /\ 0 <= y < Y0 /\ v = item2 a x y.
Proof.
  intros Hs Hv. unfold elements2 in Hv. rewrite Hs in Hv. cbn [fst snd] in Hv.
  apply list_elem_of_bind in Hv as (x & Hv & Hx).
  apply list_elem_of_bind in Hv as (y & Hv & Hy).
  apply elem_of_seqZ in Hx. apply elem_of_seqZ in Hy.
  apply list_elem_of_singleton in Hv. exists x, y. repeat split; lia || assumption.
Qed.

(** [np.max] of a slice with voxels is the maximum of the slice. *)
Lemma np_max_slice_maximum (vol : Array3 spec_float) (X0 Y0 k : Z) :
  1 <= X0 -> 1 <= Y0 ->
  exists m, np_max (mkArray2 (X0, Y0) (fun x y => item3 vol x y k)) = Ok m /\
            slice_maximum vol X0 Y0 k m.
Proof.
  intros HX HY. set (a := mkArray2 (X0, Y0) (fun x y => item3 vol x y k)).
  destruct (elements2_nonempty a X0 Y0 eq_refl HX HY) as (l & Hl).
  assert (Hin : forall x y, 0 <= x < X0 -> 0 <= y < Y0 -> item3 vol x y k ∈ elements2 a).
  { intros x y Hx Hy. exact (elements2_elem_of a X0 Y0 x y eq_refl Hx Hy). }
  assert (Hinv : forall v, v ∈ elements2 a ->
                           exists x y, 0 <= x < X0 /\ 0 <= y < Y0 /\ v = item3 vol x y k).
  { intros v Hv. exact (elements2_elem_of_inv a X0 Y0 v eq_refl Hv). }
  unfold np_max. rewrite Hl in *.
  destruct (decide (Exists (fun e => is_nan e = true) (item2 a 0 0 :: l))) as [He | Hne].
  - exists S754_nan. split.
    + f_equal. apply Exists_exists in He as (e & Hel & Hnan).
      destruct e; try discriminate.
      apply elem_of_cons in Hel as [<- | Hel];
        [apply foldl_np_maximum_nan | now apply foldl_np_maximum_nan_in].
    + left. split; [|reflexivity].
      apply Exists_exists in He as (e & Hel & Hnan).
      destruct (Hinv e Hel) as (x & y & Hx & Hy & ->). eauto.
  - assert (Hall : Forall (fun e => is_nan e = false) (item2 a 0 0 :: l)).
    { apply Forall_forall. intros e Hel. destruct (is_nan e) eqn:E; [|reflexivity].
      exfalso. apply Hne, Exists_exists. eauto. }
    inversion Hall as [|? ? H0 Hrest]; subst.
    destruct (foldl_np_maximum_spec l (item2 a 0 0) H0 Hrest) as (Hmem & _ & Hle & Hles).
    eexists. split; [reflexivity|]. right. split; [|split].
    + intros x y Hx Hy. rewrite Forall_forall in Hall. apply Hall, Hin; assumption.
    + apply Hinv. destruct Hmem as [-> | Hmem]; [left | now right].
    + intros x y Hx Hy. specialize (Hin x y Hx Hy).
      apply elem_of_cons in Hin as [-> | Hin]; [exact Hle|].
      rewrite Forall_forall in Hles. now apply Hles.
Qed.

(** What the normalisation of slice [k] computes: each voxel, rounded to
    single precision, divided by the maximum of the slice. *)
Lemma normalize_slice_maximum (vol : Array3 spec_float) (X0 Y0 D k : Z) :
  shape3 vol = (X0, Y0, D) -> 1 <= X0 -> 1 <= Y0 -> 0 <= k < D ->
  exists m,
    slice_maximum vol X0 Y0 k m /\
    normalize_slice vol k
    = Ok (mkArray2 (X0, Y0)
            (fun x y => single_div (astype_single (item3 vol x y k)) (astype_single m))).
Proof.
  intros Hs HX HY Hk. unfold normalize_slice.
  rewrite (slice_z_in_range vol X0 Y0 D k Hs Hk). cbn [mbind result_bind].
  destruct (np_max_slice_maximum vol X0 Y0 k HX HY) as (m & Hm & Hspec).
  rewrite Hm. exists m. split; [exact Hspec | reflexivity].
Qed.

(** Without negative zeros a slice has one maximum only. *)
Lemma slice_maximum_unique (vol : Array3 spec_float) (X0 Y0 k : Z) (m1 m2 : spec_float) :
  (forall x y, 0 <= x < X0 -> 0 <= y < Y0 -> in_single_range (item3 vol x y k) = true) ->
  slice_maximum vol X0 Y0 k m1 -> slice_maximum vol X0 Y0 k m2 -> m1 = m2.
Proof.
  intros Hr [[(x1 & y1 & Hx1 & Hy1 & Hn1) ->] | (Hnn1 & (x1 & y1 & Hx1 & Hy1 & ->) & Hle1)]
            [[(x2 & y2 & Hx2 & Hy2 & Hn2) ->] | (Hnn2 & (x2 & y2 & Hx2 & Hy2 & ->) & Hle2)].
  - reflexivity.
  - rewrite (Hnn2 x1 y1 Hx1 Hy1) in Hn1. discriminate.
  - rewrite (Hnn1 x2 y2 Hx2 Hy2) in Hn2. discriminate.
  - destruct (SFleb_antisym (item3 vol x1 y1 k) (item3 vol x2 y2 k))
      as [Heq | [Hz1 Hz2]]; auto.
    pose proof (Hr x1 y1 Hx1 Hy1) as R1. pose proof (Hr x2 y2 Hx2 Hy2) as R2.
    destruct (item3 vol x1 y1 k) as [[]| | |], (item3 vol x2 y2 k) as [[]| | |];
      try discriminate; reflexivity.
Qed.

(** C5 (the code at a slice with a negative intensity): the slice (-1, 2)
    is normalised to (-0.5, 1), and -0.5 lies below 0, outside [0,1]. *)
Theorem normalize_slice_negative_intensity :
  exists slc, normalize_slice negative_volume 0 = Ok slc /\
              shape2 slc = (1, 2) /\
              item2 slc 0 0 = S754_finite true 8388608 (-24) /\
              item2 slc 0 1 = S754_finite false 8388608 (-23) /\
              SFltb (item2 slc 0 0) (S754_zero false) = true.
Proof.
  exists (mkArray2 (1, 2)
            (fun x y => single_div (astype_single (item3 negative_volume x y 0))
                                   (astype_single (double_of_Z 2)))).
  split.
  - unfold normalize_slice.
    rewrite (slice_z_in_range negative_volume 1 2 1 0) by (reflexivity || lia).
    cbn [mbind result_bind].
    assert (Hm : np_max (mkArray2 (1, 2) (fun x y => item3 negative_volume x y 0))
                 = Ok (double_of_Z 2)) by (vm_compute; reflexivity).
    rewrite Hm. reflexivity.
  - cbn [shape2 item2]. repeat split; vm_compute; reflexivity.
Qed.

(** The normalisation of a slice of zeros does not raise: it returns a slice
    of NaN. *)
Lemma normalize_zero_slice_returns_nan :
  (forall x y, item3 zero_volume x y 0 = S754_zero false) /\
  exists slc, normalize_slice zero_volume 0 = Ok slc /\
              shape2 slc = (2, 2) /\
              forall x y, item2 slc x y = S754_nan.
Proof.
  split; [reflexivity|].
  exists (mkArray2 (2, 2)
            (fun x y => single_div (astype_single (item3 zero_volume x y 0))
                                   (astype_single (S754_zero false)))).
  split.
  - unfold normalize_slice.
    rewrite (slice_z_in_range zero_volume 2 2 1 0) by (reflexivity || lia).
    cbn [mbind result_bind].
    assert (Hm : np_max (mkArray2 (2, 2) (fun x y => item3 zero_volume x y 0))
                 = Ok (S754_zero false)) by (vm_compute; reflexivity).
    rewrite Hm. reflexivity.
  - split; [reflexivity|]. intros x y. reflexivity.
Qed.

(** ** The training loop *)

Lemma for_each_app {A S : Type} (body : S -> A -> result S) (xs ys : list A) (s : S) :
  for_each body (xs ++ ys) s = for_each body xs s ≫= for_each body ys.
Proof.
  revert s. induction xs as [|a xs IH]; intros s; cbn [app for_each].
  - reflexivity.
  - destruct (body s a) as [s'|e]; cbn [mbind result_bind]; [apply IH | reflexivity].
Qed.

Lemma for_each_ext {A S : Type} (f g : S -> A -> result S) (xs : list A) (s : S) :
  (forall s' a, a ∈ xs -> f s' a = g s' a) ->
  for_each f xs s = for_each g xs s.
Proof.
  revert s. induction xs as [|a xs IH]; intros s Hfg; cbn [for_each]; [reflexivity|].
  rewrite (Hfg s a) by left.
  destruct (g s a) as [s'|e]; cbn [mbind result_bind]; [|reflexivity].
  apply IH. intros s'' b Hb. apply Hfg. now right.
Qed.


Section TrainingProps.
Context {V : Type} (of_float : spec_float -> V).
Context {World Y L : Type}.
Variable extract_label : Array3 spec_float -> Z -> result Y.
Variable zero_grad : World -> World.
Variable unet_call : World -> Tensor V -> result (Tensor V * World).
Variable loss_call : Tensor V -> Y -> result L.
Variable backward : World -> L -> World.
Variable optimizer_step : World -> World.
Variable training_volume training_label : Array3 spec_float.

Abbreviation step :=
  (train_step of_float extract_label zero_grad unet_call loss_call backward
     optimizer_step training_volume training_label).
Abbreviation loop :=
  (training_loop of_float extract_label zero_grad unet_call loss_call backward
     optimizer_step training_volume training_label).
Abbreviation input_of slc := (slc_tensor_of of_float slc).

(** One iteration whose calls all return. *)
Lemma train_step_returns (env : Env V World Y L) (k : Z)
    (slc : Array2 spec_float) (lbl : Y) (p : Tensor V) (w2 : World) (lv : L) :
  normalize_slice training_volume k = Ok slc ->
  extract_label training_label k = Ok lbl ->
  unet_call (zero_grad (world env)) (input_of slc) = Ok (p, w2) ->
  loss_call p lbl = Ok lv ->
  step env k
  = Ok (mkEnv (optimizer_step (backward w2 lv))
          (trace env ++ [Ev_zero_grad; Ev_forward (input_of slc); Ev_loss p lbl;
                         Ev_backward lv; Ev_step])
          (Some p) (Some lv)).
Proof.
  intros Hs Hl Hp Hv. unfold train_step.
  rewrite Hs. cbn [mbind result_bind]. rewrite Hl. cbn [mbind result_bind].
  rewrite Hp. cbn [mbind result_bind]. rewrite Hv. reflexivity.
Qed.

Lemma print_epoch_bound (env : Env V World Y L) (epoch : Z) (lv : L) :
  l env = Some lv ->
  print_epoch env epoch
  = Ok (mkEnv (world env) (trace env ++ [Ev_print epoch lv]) (pred env) (l env)).
Proof. intros Hl. unfold print_epoch. now rewrite Hl. Qed.

Lemma forward_inputs_app (t1 t2 : list (event V Y L)) :
  forward_inputs (t1 ++ t2) = forward_inputs t1 ++ forward_inputs t2.
Proof. unfold forward_inputs. apply bind_app. Qed.

Section Schedule.
Variable slc : Z -> Array2 spec_float.
Variable lbl : Z -> Y.
Hypothesis normalize_returns :
  forall k, 0 <= k < 15 -> normalize_slice training_volume k = Ok (slc k).
Hypothesis label_returns :
  forall k, 0 <= k < 15 -> extract_label training_label k = Ok (lbl k).
(** The network returns on the slices it is given, and the loss on what the
    network returned for them. *)
Hypothesis unet_returns :
  forall w k, 0 <= k < 15 -> exists p w', unet_call w (input_of (slc k)) = Ok (p, w').
Hypothesis loss_returns :
  forall w k p w', 0 <= k < 15 -> unet_call w (input_of (slc k)) = Ok (p, w') ->
                   exists lv, loss_call p (lbl k) = Ok lv.

Lemma inner_loop_schedule (ks : list Z) :
  (forall k, k ∈ ks -> 0 <= k < 15) ->
  forall env : Env V World Y L,
  exists env',
    for_each step ks env = Ok env' /\
    map kind_of (trace env') = map kind_of (trace env) ++ (ks ≫= fun _ => step_kinds) /\
    forward_inputs (trace env')
    = forward_inputs (trace env) ++ (ks ≫= fun k => [input_of (slc k)]) /\
    (ks <> [] -> is_Some (l env')).
Proof.
  induction ks as [|k ks IH]; intros Hks env.
  - exists env. cbn. rewrite !app_nil_r. repeat split; congruence.
  - assert (Hk : 0 <= k < 15) by (apply Hks; left).
    destruct (unet_returns (zero_grad (world env)) k Hk) as (p & w2 & Hp).
    destruct (loss_returns _ k p w2 Hk Hp) as (lv & Hv).
    pose proof (train_step_returns env k (slc k) (lbl k) p w2 lv
                  (normalize_returns k Hk) (label_returns k Hk) Hp Hv) as Hstep.
    destruct (IH (fun k' Hk' => Hks k' (list_elem_of_further _ _ _ Hk'))
                 (mkEnv (optimizer_step (backward w2 lv))
                    (trace env ++ [Ev_zero_grad; Ev_forward (input_of (slc k));
                                   Ev_loss p (lbl k); Ev_backward lv; Ev_step])
                    (Some p) (Some lv)))
      as (env' & Hloop & Hkinds & Hinputs & Hl).
    exists env'. cbn [for_each]. rewrite Hstep. cbn [mbind result_bind].
    split; [exact Hloop|]. cbn [trace] in Hkinds, Hinputs.
    split; [|split].
    + rewrite Hkinds, map_app, <- app_assoc. reflexivity.
    + rewrite Hinputs, forward_inputs_app, <- app_assoc. reflexivity.
    + intros _. destruct ks as [|k' ks'].
      * cbn in Hloop. injection Hloop as <-. cbn. eauto.
      * apply Hl. discriminate.
Qed.

Lemma outer_loop_schedule (epochs : list Z) :
  forall env : Env V World Y L,
  exists final,
    for_each (fun env epoch => for_each step (seqZ 0 15) env ≫= fun env' =>
                               print_epoch env' epoch) epochs env = Ok final /\
    map kind_of (trace final)
    = map kind_of (trace env) ++ (epochs ≫= fun _ => epoch_kinds) /\
    forward_inputs (trace final)
    = forward_inputs (trace env)
      ++ (epochs ≫= fun _ => seqZ 0 15 ≫= fun k => [input_of (slc k)]).
Proof.
  induction epochs as [|epoch epochs IH]; intros env.
  - exists env. cbn. rewrite !app_nil_r. repeat split.
  - destruct (inner_loop_schedule (seqZ 0 15)
                (fun k Hk => proj1 (elem_of_seqZ 0 15 k) Hk) env)
      as (env1 & Hin & Hkinds1 & Hinputs1 & Hl).
    destruct (Hl ltac:(discriminate)) as (lv & Hlv).
    set (env2 := mkEnv (world env1) (trace env1 ++ [Ev_print epoch lv])
                   (pred env1) (l env1)).
    destruct (IH env2) as (final & Hout & Hkinds & Hinputs).
    exists final. cbn [for_each]. rewrite Hin. cbn [mbind result_bind].
    rewrite (print_epoch_bound env1 epoch lv Hlv). cbn [mbind result_bind]. fold env2.
    split; [exact Hout|]. subst env2. cbn [trace] in Hkinds, Hinputs.
    split.
    + rewrite Hkinds, map_app, Hkinds1. cbn [mbind list_bind].
      unfold epoch_kinds at 2. rewrite <- !app_assoc. reflexivity.
    + rewrite Hinputs, forward_inputs_app, Hinputs1. cbn [mbind list_bind].
      change (forward_inputs [Ev_print epoch lv]) with (@nil (Tensor V)).
      rewrite app_nil_r, <- app_assoc. reflexivity.
Qed.

End Schedule.


(** C7 (as amended): when the loop meets a non-empty slice of zeros, the
    normalisation raises nothing: the maximum is zero, every element of the
    normalised slice is the NaN of 0/0, and the iteration goes on to the
    label extraction and the forward pass with that slice, as for any other
    slice; nothing handles it. *)
Theorem zero_slice_normalizes_to_nan (X0 Y0 D k : Z) (env : Env V World Y L) :
  shape3 training_volume = (X0, Y0, D) -> 1 <= X0 -> 1 <= Y0 -> 0 <= k < D ->
  (forall x y, 0 <= x < X0 -> 0 <= y < Y0 ->
               is_zero (item3 training_volume x y k) = true) ->
  exists slc,
    normalize_slice training_volume k = Ok slc /\
    shape2 slc = (X0, Y0) /\
    (forall x y, 0 <= x < X0 -> 0 <= y < Y0 -> item2 slc x y = S754_nan) /\
    step env k
    = (lbl_tensor ← extract_label training_label k;
       pw ← unet_call (zero_grad (world env)) (input_of slc);
       let '(p, w2) := pw in
       lv ← loss_call p lbl_tensor;
       mret (mkEnv (optimizer_step (backward w2 lv))
               (trace env ++ [Ev_zero_grad; Ev_forward (input_of slc);
                              Ev_loss p lbl_tensor; Ev_backward lv; Ev_step])
               (Some p) (Some lv))).
Proof.
  intros Hs HX HY Hk Hz.
  destruct (normalize_zero_slice training_volume X0 Y0 D k Hs HX HY Hk Hz)
    as (slc & Hn & Hsh & Hnan).
  exists slc. repeat split; try assumption.
  unfold train_step. rewrite Hn. reflexivity.
Qed.

End TrainingProps.

Lemma ramp_volume_in_single_range (x y k : Z) :
  in_single_range (item3 ramp_volume x y k) = true.
Proof. cbn [ramp_volume item3]. destruct (x =? 0); vm_compute; reflexivity. Qed.

(** The notebook's network in training mode returns on every slice of
    32 x 32 voxels. *)
Lemma net_call_returns (w : state_dict spec_float) (x : Tensor spec_float) :
  size x = mkSize 1 1 32 32 -> exists p w', net_call w x = Ok (p, w').
Proof.
  intros Hx.
  assert (Hg : true = false \/ 1 * 2 * 2 <> 1) by (right; lia).
  pose proof (forward_returns w true (Some 1) (Some 2) None 1 2 2 x
                ltac:(lia) ltac:(lia) ltac:(lia) Hg Hx)
    as (y & Hy & _).
  exists y, w. unfold net_call, unet. now rewrite Hy.
Qed.


Lemma zero_slice_normalizes_to_nan_witness :
  exists slc,
    normalize_slice zero_volume 0 = Ok slc /\
    item2 slc 1 1 = S754_nan /\
    exists env', train_step (fun v => v) toy_label (fun w => w) toy_unet toy_loss
                   toy_backward Z.succ zero_volume zero_volume toy_env 0 = Ok env'.
Proof.
  destruct (zero_slice_normalizes_to_nan (fun v => v) toy_label (fun w => w) toy_unet
              toy_loss toy_backward Z.succ zero_volume zero_volume 2 2 1 0 toy_env)
    as (slc & Hn & _ & Hnan & Hstep);
    [reflexivity | lia | lia | lia | reflexivity |].
  exists slc. split; [exact Hn|]. split; [apply Hnan; lia|].
  rewrite Hstep. eexists. reflexivity.
Defined.

(** ** The mask of a slice and the reconstructed volume *)

Lemma setitem_z_same_shape {V : Type} (a : Array3 V) (m : Array2 V) (X0 Y0 D k : Z) :
  shape3 a = (X0, Y0, D) -> shape2 m = (X0, Y0) -> 0 <= k < D ->
  setitem_z a k m
  = Ok (mkArray3 (X0, Y0, D)
          (fun x y z => if z =? k then item2 m x y else item3 a x y z)).
Proof.
  intros Ha Hm Hk. unfold setitem_z. rewrite Ha, Hm.
  destruct (k <? 0) eqn:E; [lia|].
  destruct (0 <=? k) eqn:E1; [|lia]. destruct (k <? D) eqn:E2; [|lia].
  rewrite !Z.eqb_refl. reflexivity.
Qed.

(** ** The arg-max under an order by classes *)

Section ArgmaxOrder.
Context {V : Type} `{Scalar V} `{!LtbOrder V}.

Lemma ltb_asym (a b : V) : s_ltb a b = true -> s_ltb b a = false.
Proof.
  intros Hab. destruct (s_ltb b a) eqn:Hba; [|reflexivity].
  pose proof (ltb_trans a b a Hab Hba) as Haa. now rewrite ltb_irrefl in Haa.
Qed.

Lemma ltb_trans_l (a b c : V) : s_ltb a b = false -> s_ltb a c = true -> s_ltb b c = true.
Proof.
  intros Hab Hac. destruct (s_ltb b c) eqn:Hbc; [reflexivity|].
  now rewrite (ltb_neg_trans a b c Hab Hbc) in Hac.
Qed.

Lemma ltb_trans_r (a b c : V) : s_ltb a b = true -> s_ltb a c = false -> s_ltb b c = false.
Proof.
  intros Hab Hac. destruct (s_ltb b c) eqn:Hbc; [|reflexivity].
  now rewrite (ltb_trans a b c Hab Hbc) in Hac.
Qed.

Lemma argmax_from_order (vs : list V) (i best : Z) (bv : V) :
  let r := argmax_from i best bv vs in
  (r = best /\ Forall (fun v => s_ltb bv v = false) vs) \/
  (exists rv, i <= r /\ vs !! Z.to_nat (r - i) = Some rv /\ s_ltb bv rv = true /\
              Forall (fun v => s_ltb rv v = false) vs /\
              forall (p : nat) (v : V),
                (p < Z.to_nat (r - i))%nat -> vs !! p = Some v -> s_ltb v rv = true).
Proof.
  revert i best bv. induction vs as [|v vs IH]; intros i best bv; cbn zeta;
    cbn [argmax_from].
  - left. split; [reflexivity | constructor].
  - destruct (s_ltb bv v) eqn:Hlt.
    + right. destruct (IH (i + 1) i v) as [[Hr Hall] | (rv & Hi & Hnth & Hv & Hall & Hbefore)].
      * exists v. rewrite Hr, Z.sub_diag. repeat split.
        -- lia.
        -- exact Hlt.
        -- constructor; [apply ltb_irrefl | exact Hall].
        -- intros p w Hp. cbn in Hp. lia.
      * exists rv. split; [lia|]. split.
        { replace (Z.to_nat (argmax_from (i + 1) i v vs - i))
            with (S (Z.to_nat (argmax_from (i + 1) i v vs - (i + 1)))) by lia.
          exact Hnth. }
        split; [exact (ltb_trans bv v rv Hlt Hv)|].
        split; [constructor; [now apply ltb_asym | exact Hall]|].
        intros p w Hp Hw. destruct p as [|p]; cbn in Hw.
        -- injection Hw as <-. exact Hv.
        -- apply (Hbefore p w); [lia | exact Hw].
    + destruct (IH (i + 1) best bv) as [[Hr Hall] | (rv & Hi & Hnth & Hv & Hall & Hbefore)].
      * left. split; [exact Hr | constructor; [exact Hlt | exact Hall]].
      * right. exists rv. split; [lia|]. split.
        { replace (Z.to_nat (argmax_from (i + 1) best bv vs - i))
            with (S (Z.to_nat (argmax_from (i + 1) best bv vs - (i + 1)))) by lia.
          exact Hnth. }
        split; [exact Hv|].
        split; [constructor; [exact (ltb_trans_r bv rv v Hv Hlt) | exact Hall]|].
        intros p w Hp Hw. destruct p as [|p]; cbn in Hw.
        -- injection Hw as <-. exact (ltb_trans_l bv v rv Hlt Hv).
        -- apply (Hbefore p w); [lia | exact Hw].
Qed.

(** The arg-max over [f 0 .. f (n-1)] is an index of the range whose value
    no value of the range exceeds, and the first such index: every earlier
    value lies strictly below. *)
Lemma argmax_list_first_maximum (f : Z -> V) (n : Z) :
  1 <= n ->
  let r := argmax_list (map f (seqZ 0 n)) in
  0 <= r < n /\
  (forall c, 0 <= c < n -> s_ltb (f r) (f c) = false) /\
  (forall c, 0 <= c < r -> s_ltb (f c) (f r) = true).
Proof.
  intros Hn. cbn zeta. rewrite seqZ_cons by lia. cbn [map argmax_list].
  set (vs := map f (seqZ (Z.succ 0) (Z.pred n))).
  assert (Hlen : Z.of_nat (length vs) = n - 1).
  { unfold vs. rewrite length_map, length_seqZ. lia. }
  assert (Hvs : forall p : nat, Z.of_nat p < n - 1 ->
                                vs !! p = Some (f (Z.of_nat p + 1))).
  { intros p Hp. unfold vs. change (map f ?l) with (f <$> l).
    rewrite list_lookup_fmap, lookup_seqZ_lt by lia. cbn. f_equal. f_equal. lia. }
  assert (Hall : forall rv, Forall (fun v => s_ltb rv v = false) vs ->
                            forall c, 1 <= c < n -> s_ltb rv (f c) = false).
  { intros rv HF c Hc. rewrite Forall_lookup in HF.
    specialize (HF (Z.to_nat (c - 1)) (f c)). apply HF.
    rewrite Hvs by lia. f_equal. f_equal. lia. }
  destruct (argmax_from_order vs 1 0 (f 0)) as [[Hr HF] | (rv & Hi & Hnth & Hv & HF & Hbefore)].
  - rewrite Hr. split; [lia|]. split; [|intros c Hc; lia].
    intros c Hc. destruct (Z.eq_dec c 0) as [-> | Hc0]; [apply ltb_irrefl|].
    apply (Hall (f 0) HF). lia.
  - set (r := argmax_from 1 0 (f 0) vs) in *.
    assert (Hrn : r < n).
    { apply lookup_lt_Some in Hnth. lia. }
    assert (Hrv : rv = f r).
    { rewrite Hvs in Hnth by lia. injection Hnth as <-. f_equal. lia. }
    subst rv. split; [lia|]. split.
    + intros c Hc. destruct (Z.eq_dec c 0) as [-> | Hc0]; [now apply ltb_asym|].
      apply (Hall (f r) HF). lia.
    + intros c Hc. destruct (Z.eq_dec c 0) as [-> | Hc0]; [exact Hv|].
      apply (Hbefore (Z.to_nat (c - 1)) (f c)); [lia|].
      rewrite Hvs by lia. f_equal. f_equal. lia.
Qed.

End ArgmaxOrder.

(** ** The reconstruction *)

Section InferenceProps.
Context {V : Type} `{Scalar V}.
Variable of_float : spec_float -> V.
Variable st : state_dict V.
Variable cout F a b D : Z.
Variable vol : Array3 spec_float.
Hypothesis cout_pos : 1 <= cout.
Hypothesis a_pos : 1 <= a.
Hypothesis b_pos : 1 <= b.
Hypothesis vol_shape : shape3 vol = (16 * a, 16 * b, D).

Abbreviation self := (UNet_init (Some 1) (Some cout) (Some F)).

(** The tensor of slice [k] normalised by [m]. *)
Abbreviation slice_tensor k m :=
  (mkTensor (mkSize 1 1 (16 * a) (16 * b))
     (fun _ _ i j =>
        of_float (single_div (astype_single (item3 vol i j k)) (astype_single m)))).

(** The mask of slice [k]: the arg-max over the channels of the forward pass
    on the slice divided by its maximum. *)
Lemma inference_returns (k : Z) :
  0 <= k < D ->
  exists m out,
    slice_maximum vol (16 * a) (16 * b) k m /\
    forward st false self (slice_tensor k m) = Ok out /\
    size out = mkSize 1 cout (16 * a) (16 * b) /\
    inference of_float st self vol k
    = Ok (mkArray2 (16 * a, 16 * b)
            (fun i j => argmax_list (map (fun c => data out 0 c i j) (seqZ 0 cout)))).
Proof.
  intros Hk.
  destruct (normalize_slice_maximum vol (16 * a) (16 * b) D k vol_shape)
    as (m & Hm & Hslc); [lia | lia | exact Hk |].
  destruct (forward_returns st false (Some 1) (Some cout) (Some F) 1 a b
              (slice_tensor k m))
    as (out & Hout & Hsz); [lia | exact a_pos | exact b_pos | now left | reflexivity |].
  change (default 1 (Some cout)) with cout in Hsz.
  exists m, out. repeat split; try assumption.
  unfold inference. rewrite Hslc. cbn [mbind result_bind].
  change (slc_tensor_of of_float _) with (slice_tensor k m).
  rewrite Hout. cbn [mbind result_bind].
  unfold first_of_batch. rewrite Hsz. cbn [batch channels height width].
  change (1 <? 1) with false.
  cbn [mbind result_bind]. unfold torch_argmax_dim0. cbn [shape3 item3].
  destruct (cout <? 1) eqn:E; [lia|]. reflexivity.
Qed.

(** The loop over a list of distinct slice indices fills exactly these
    slices. *)
Lemma reconstruct_loop (ks : list Z) :
  NoDup ks -> (forall k, k ∈ ks -> 0 <= k < D) ->
  forall m0 : Array3 Z,
    shape3 m0 = shape3 vol ->
    exists m,
      for_each (fun mask3d slice_ix =>
                  mask ← inference of_float st self vol slice_ix;
                  setitem_z mask3d slice_ix mask) ks m0 = Ok m /\
      shape3 m = shape3 vol /\
      (forall k, k ∈ ks ->
         exists mask, inference of_float st self vol k = Ok mask /\
                      forall x y, item3 m x y k = item2 mask x y) /\
      (forall x y z, z ∉ ks -> item3 m x y z = item3 m0 x y z).
Proof.
  induction ks as [|k ks IH]; intros Hnd Hks m0 Hm0.
  - exists m0. cbn [for_each]. repeat split; try assumption.
    intros k Hk. inversion Hk.
  - apply NoDup_cons in Hnd as [Hk_notin Hnd].
    assert (Hk : 0 <= k < D) by (apply Hks; left).
    destruct (inference_returns k Hk) as (mk & out & _ & _ & _ & Hinf).
    rewrite vol_shape in Hm0.
    cbn [for_each]. rewrite Hinf. cbn [mbind result_bind].
    erewrite setitem_z_same_shape; [| exact Hm0 | reflexivity | exact Hk].
    cbn [mbind result_bind].
    match goal with
    | |- context [for_each _ ks ?m1] =>
        destruct (IH Hnd (fun k' Hk' => Hks k' (list_elem_of_further _ _ _ Hk')) m1)
          as (m & Hrun & Hshape & Hin & Hout_)
    end.
    { cbn [shape3]. now rewrite vol_shape. }
    exists m. split; [exact Hrun|]. split; [exact Hshape|]. split.
    + intros k' Hk'. apply elem_of_cons in Hk' as [-> | Hk'].
      * eexists. split; [exact Hinf|]. intros x y.
        rewrite (Hout_ x y k Hk_notin). cbn [item3]. now rewrite Z.eqb_refl.
      * apply Hin, Hk'.
    + intros x y z Hz. apply not_elem_of_cons in Hz as [Hzk Hz].
      rewrite (Hout_ x y z Hz). cbn [item3].
      destruct (z =? k) eqn:E; [lia | reflexivity].
Qed.

End InferenceProps.

(** C9: in evaluation mode, on a volume with voxels in single range whose
    slices have sides that are positive multiples of 16, the reconstruction
    returns an array of the volume's shape.  For every depth index k the
    network's output on slice k, rounded to single precision and divided by
    its own one maximum, has one image of C_out channels of the
    slice's height and width, the mask of the slice has that height and
    width, and the array holds at each pixel of depth k a channel index
    whose output value no channel exceeds, the first such index. *)
Theorem reconstruct_labels_every_slice {V : Type} `{Scalar V} `{!LtbOrder V}
    (of_float : spec_float -> V) (st : state_dict V) (cout F a b D : Z)
    (vol : Array3 spec_float) :
  1 <= cout -> 1 <= F -> 1 <= a -> 1 <= b -> 0 <= D ->
  shape3 vol = (16 * a, 16 * b, D) ->
  (forall x y k, 0 <= x < 16 * a -> 0 <= y < 16 * b -> 0 <= k < D ->
     in_single_range (item3 vol x y k) = true) ->
  let self := UNet_init (Some 1) (Some cout) (Some F) in
  exists mask3d,
    reconstruct of_float st self vol = Ok mask3d /\
    shape3 mask3d = shape3 vol /\
    forall k, 0 <= k < D ->
      exists m out mask,
        slice_maximum vol (16 * a) (16 * b) k m /\
        (forall m', slice_maximum vol (16 * a) (16 * b) k m' -> m' = m) /\
        forward st false self
          (mkTensor (mkSize 1 1 (16 * a) (16 * b))
             (fun _ _ i j =>
                of_float (single_div (astype_single (item3 vol i j k))
                                     (astype_single m)))) = Ok out /\
        size out = mkSize 1 cout (16 * a) (16 * b) /\
        inference of_float st self vol k = Ok mask /\
        shape2 mask = (16 * a, 16 * b) /\
        forall x y,
          item3 mask3d x y k = item2 mask x y /\
          0 <= item3 mask3d x y k < cout /\
          (forall c, 0 <= c < cout ->
             s_ltb (data out 0 (item3 mask3d x y k) x y) (data out 0 c x y) = false) /\
          (forall c, 0 <= c < item3 mask3d x y k ->
             s_ltb (data out 0 c x y) (data out 0 (item3 mask3d x y k) x y) = true).
Proof.
  intros Hc _ Ha Hb HD Hs Hr self.
  destruct (reconstruct_loop of_float st cout F a b D vol Hc Ha Hb Hs (seqZ 0 D)
              (NoDup_seqZ 0 D)
              (fun k Hk => proj1 (elem_of_seqZ 0 D k) Hk)
              (np_zeros (shape3 vol)) eq_refl)
    as (m3 & Hrun & Hshape & Hin & _).
  exists m3. split.
  - unfold reconstruct. rewrite Hs at 1. cbn [snd]. exact Hrun.
  - split; [exact Hshape|]. intros k Hk.
    destruct (inference_returns of_float st cout F a b D vol Hc Ha Hb Hs k Hk)
      as (m & out & Hm & Hout & Hsz & Hinf).
    destruct (Hin k (proj2 (elem_of_seqZ 0 D k) ltac:(lia))) as (mask & Hmask & Hitem).
    fold self in Hinf, Hout, Hmask. rewrite Hinf in Hmask. injection Hmask as <-.
    exists m, out. eexists. split; [exact Hm|]. split.
    { intros m' Hm'.
      apply (slice_maximum_unique vol (16 * a) (16 * b) k m' m); [|exact Hm' | exact Hm].
      intros x y Hx Hy. now apply Hr. }
    split; [exact Hout|].
    split; [exact Hsz|]. split; [exact Hinf|]. split; [reflexivity|].
    intros x y. split; [apply Hitem|]. rewrite Hitem. cbn [item2].
    exact (argmax_list_first_maximum (fun c => data out 0 c x y) cout Hc).
Qed.

Lemma small_volume_in_single_range (x y k : Z) :
  in_single_range (item3 small_volume x y k) = true.
Proof. vm_compute. reflexivity. Qed.

Lemma reconstruct_labels_every_slice_witness :
  exists mask3d,
    reconstruct (fun v => v) unit_weights (UNet_init (Some 1) (Some 2) (Some 32))
      small_volume = Ok mask3d /\
    shape3 mask3d = (16, 16, 3) /\
    forall x y k, 0 <= k < 3 -> 0 <= item3 mask3d x y k < 2.
Proof.
  pose proof (reconstruct_labels_every_slice (fun v => v) unit_weights
                2 32 1 1 3 small_volume
                ltac:(lia) ltac:(lia) ltac:(lia) ltac:(lia) ltac:(lia) eq_refl
                (fun x y k _ _ _ => small_volume_in_single_range x y k))
    as (mask3d & Hrun & Hshape & Hk).
  exists mask3d. split; [exact Hrun|]. split; [exact Hshape|].
  intros x y k Hk3.
  destruct (Hk k Hk3) as (m & out & mask & _ & _ & _ & _ & _ & _ & Hpix).
  apply Hpix.
Defined.

(** ** The arg-max *)

Lemma argmax_from_range {V : Type} `{Scalar V} (vs : list V) (i best : Z) (bv : V) :
  argmax_from i best bv vs = best \/
  i <= argmax_from i best bv vs < i + Z.of_nat (length vs).
Proof.
  revert i best bv. induction vs as [|v vs IH]; intros i best bv; cbn [argmax_from].
  - now left.
  - cbn [length]. destruct (s_ltb bv v).
    + destruct (IH (i + 1) i v) as [-> | Hr]; right; lia.
    + destruct (IH (i + 1) best bv) as [-> | Hr]; [now left | right; lia].
Qed.

(** The arg-max of a non-empty list is an index of the list. *)
Lemma argmax_list_range {V : Type} `{Scalar V} (vs : list V) :
  vs <> [] -> 0 <= argmax_list vs < Z.of_nat (length vs).
Proof.
  destruct vs as [|v vs]; [congruence|]. intros _. cbn [argmax_list length].
  destruct (argmax_from_range vs 1 0 v) as [-> | Hr]; lia.
Qed.

Lemma argmax_from_maximum (vs : list R) (i best : Z) (bv : R) :
  exists rv : R,
    (argmax_from i best bv vs = best /\ rv = bv \/
     i <= argmax_from i best bv vs /\
     vs !! Z.to_nat (argmax_from i best bv vs - i) = Some rv) /\
    (bv <= rv)%R /\ Forall (fun v => (v <= rv)%R) vs.
Proof.
  revert i best bv. induction vs as [|v vs IH]; intros i best bv; cbn [argmax_from].
  - exists bv. split; [now left|]. split; [lra | constructor].
  - cbn [s_ltb R_scalar]. unfold Rltb. destruct (Rlt_dec bv v) as [Hlt | Hge].
    + destruct (IH (i + 1) i v) as (rv & Hpos & Hle & Hall).
      exists rv. split; [|split; [lra | constructor; assumption]].
      right. destruct Hpos as [[-> ->] | [Hi Hnth]].
      * split; [lia|]. now rewrite Z.sub_diag.
      * split; [lia|].
        replace (Z.to_nat (argmax_from (i + 1) i v vs - i))
          with (S (Z.to_nat (argmax_from (i + 1) i v vs - (i + 1)))) by lia.
        exact Hnth.
    + destruct (IH (i + 1) best bv) as (rv & Hpos & Hle & Hall).
      exists rv. split; [|split; [lra | constructor; [lra | assumption]]].
      destruct Hpos as [[-> ->] | [Hi Hnth]]; [now left|].
      right. split; [lia|].
      replace (Z.to_nat (argmax_from (i + 1) best bv vs - i))
        with (S (Z.to_nat (argmax_from (i + 1) best bv vs - (i + 1)))) by lia.
      exact Hnth.
Qed.

(** In real arithmetic the arg-max of a non-empty list is the position of an
    element that no element exceeds. *)
Lemma argmax_list_is_maximum (vs : list R) :
  vs <> [] ->
  exists rv : R,
    vs !! Z.to_nat (argmax_list vs) = Some rv /\ Forall (fun v => (v <= rv)%R) vs.
Proof.
  destruct vs as [|v vs]; [congruence|]. intros _. cbn [argmax_list].
  destruct (argmax_from_maximum vs 1 0 v) as (rv & Hpos & Hle & Hall).
  exists rv. split; [|constructor; assumption].
  destruct Hpos as [[-> ->] | [Hi Hnth]]; [reflexivity|].
  replace (Z.to_nat (argmax_from 1 0 v vs))
    with (S (Z.to_nat (argmax_from 1 0 v vs - 1))) by lia.
  exact Hnth.
Qed.

(** ** The save cell *)

Section NiftiProps.
Context {D E : Type}.

(** C1: the image the save cell writes to "data/out.nii.gz" carries exactly
    the affine of the image read from "data/spleen1_img.nii.gz", whatever that
    affine is, and so differs from any transform the source's affine differs
    from; the voxels are those of [mask3d], and the input file is untouched. *)
Theorem save_cell_copies_affine (mask3d : D) (fs : gmap string (Nifti1Image D E))
    (org_volume : Nifti1Image D E) :
  fs !! "data/spleen1_img.nii.gz" = Some org_volume ->
  exists fs' img_out,
    save_cell mask3d fs = Ok fs' /\
    nib_load "data/out.nii.gz" fs' = Ok img_out /\
    affine img_out = affine org_volume /\
    dataobj img_out = mask3d /\
    (forall other : affine4 E, affine org_volume <> other -> affine img_out <> other) /\
    nib_load "data/spleen1_img.nii.gz" fs' = Ok org_volume.
Proof.
  intros Hsrc.
  exists (<["data/out.nii.gz" := mkNifti1Image mask3d (affine org_volume)]> fs),
         (mkNifti1Image mask3d (affine org_volume)).
  split; [|split; [|split; [|split; [|split]]]].
  - unfold save_cell, nib_load. rewrite Hsrc. reflexivity.
  - unfold nib_load. now rewrite lookup_insert_eq.
  - reflexivity.
  - reflexivity.
  - intros other Hne. exact Hne.
  - unfold nib_load. rewrite lookup_insert_ne by discriminate. now rewrite Hsrc.
Qed.

End NiftiProps.

Lemma save_cell_copies_affine_witness :
  exists fs' img_out,
    save_cell tt (<["data/spleen1_img.nii.gz" := sheared_image]> ∅) = Ok fs' /\
    nib_load "data/out.nii.gz" fs' = Ok img_out /\
    affine img_out = ((2, 1, 0, -120), (0, 3, 0, 45), (0, 0, 5, -7), (0, 0, 0, 1)) /\
    affine img_out <> identity_affine.
Proof.
  destruct (save_cell_copies_affine tt (<["data/spleen1_img.nii.gz" := sheared_image]> ∅)
              sheared_image)
    as (fs' & img_out & Hrun & Hload & Haff & _ & Hother & _).
  - apply lookup_insert_eq.
  - exists fs', img_out. split; [exact Hrun|]. split; [exact Hload|].
    split; [exact Haff|]. apply Hother. discriminate.
Defined.

(** * Further properties of the notebook's code *)

(** ** When the forward pass returns *)

(** X1: the forward pass returns exactly on the batches whose channel count
    is [in_channels] and whose height and width are positive multiples of 16,
    in evaluation mode or with more than one value per bottleneck channel. *)
Theorem forward_returns_iff {V : Type} `{Scalar V} (st : state_dict V)
    (training : bool) (cin cout F : Z) (x : Tensor V) :
  1 <= cin -> 1 <= cout -> 1 <= F -> 1 <= batch (size x) ->
  (exists y, forward st training (UNet_init (Some cin) (Some cout) (Some F)) x = Ok y) <->
  (channels (size x) = cin /\
   exists a b, 1 <= a /\ 1 <= b /\
               height (size x) = 16 * a /\ width (size x) = 16 * b /\
               (training = false \/ batch (size x) * a * b <> 1)).
Proof.
  intros _ _ _ Hn. split.
  - intros (y & Hy).
    destruct (forward_Ok_size st training (Some cin) (Some cout) (Some F) x y Hn Hy)
      as (_ & Hc & Hab).
    split; [exact Hc | exact Hab].
  - intros (Hc & a & b & Ha & Hb & Hh & Hw & Hg).
    destruct (forward_returns st training (Some cin) (Some cout) (Some F)
                (batch (size x)) a b x Hn Ha Hb Hg) as (y & Hy & _).
    + destruct (size x) as [n c h w]. cbn [batch channels height width] in *.
      change (default 1 (Some cin)) with cin. now subst.
    + eauto.
Qed.

Lemma forward_returns_iff_witness :
  exists y, forward (V := R) (fun _ _ => 0%R) true unet
              (mkTensor (mkSize 1 1 32 48) (fun _ _ _ _ => 0%R)) = Ok y.
Proof.
  apply (proj2 (forward_returns_iff (V := R) (fun _ _ => 0%R) true 1 2 32
                  (mkTensor (mkSize 1 1 32 48) (fun _ _ _ _ => 0%R))
                  ltac:(lia) ltac:(lia) ltac:(lia) ltac:(cbn; lia))).
  split; [reflexivity|]. exists 2, 3. cbn. repeat split; lia.
Defined.

(** X2: whether the forward pass returns, the exception it raises and the
    size of its output depend on the size of the input and on the mode only,
    not on the weights nor on the values of the input. *)
Theorem forward_outcome_depends_on_size {V : Type} `{Scalar V}
    (st1 st2 : state_dict V) (training : bool) (self : UNet) (x1 x2 : Tensor V) :
  size x1 = size x2 ->
  size <$> forward st1 training self x1 = size <$> forward st2 training self x2.
Proof. intros Hx. now rewrite !forward_sizes, Hx. Qed.

Lemma forward_outcome_depends_on_size_witness :
  size <$> forward (V := R) (fun _ _ => 0%R) true unet
             (mkTensor (mkSize 1 1 24 24) (fun _ _ _ _ => 0%R))
  = size <$> forward (V := R) (fun _ _ => 1%R) true unet
               (mkTensor (mkSize 1 1 24 24) (fun n c i j => IZR (i + j))).
Proof.
  apply (forward_outcome_depends_on_size (V := R)). reflexivity.
Defined.

(** ** The display cell on the default network *)

(** X5: on the output of a network built with the default [out_channels],
    the display cell raises an IndexError: there is no channel 1. *)
Theorem default_network_display_raises {V : Type} `{Scalar V} (st : state_dict V)
    (training : bool) (cin feat : option Z) (x y : Tensor V) :
  forward st training (UNet_init cin None feat) x = Ok y ->
  displayed_map y = Raise IndexError_index.
Proof.
  intros Hy. apply forward_is_softmax in Hy as (oc & Hoc & ->).
  change (default 1 None) with 1 in Hoc.
  unfold displayed_map, tensor_getitem2. cbn [size].
  destruct (wrap_index 0 (batch (size oc))) as [n'|e] eqn:E.
  - cbn [mbind result_bind]. rewrite Hoc. reflexivity.
  - unfold wrap_index in E.
    destruct ((0 <=? (if 0 <? 0 then 0 + batch (size oc) else 0))
              && ((if 0 <? 0 then 0 + batch (size oc) else 0) <? batch (size oc)));
      [discriminate | now injection E as <-].
Qed.

Lemma default_network_display_raises_witness :
  exists y,
    forward (V := R) (fun _ _ => 0%R) false (UNet_init None None None)
      (mkTensor (mkSize 1 1 16 16) (fun _ _ _ _ => 0%R)) = Ok y /\
    displayed_map y = Raise IndexError_index.
Proof.
  pose proof (forward_returns (V := R) (fun _ _ => 0%R) false None None None
                1 1 1 (mkTensor (mkSize 1 1 16 16) (fun _ _ _ _ => 0%R))
                ltac:(lia) ltac:(lia) ltac:(lia) (or_introl eq_refl) eq_refl)
    as (y & Hy & _).
  exists y. split; [exact Hy|].
  exact (default_network_display_raises (fun _ _ => 0%R) false None None _ y Hy).
Defined.

(** ** The arg-max cell *)

Lemma argmax_from_first (vs : list R) (i best : Z) (bv : R) :
  let r := argmax_from i best bv vs in
  (r = best /\ Forall (fun v => (v <= bv)%R) vs) \/
  (exists rv, i <= r /\ vs !! Z.to_nat (r - i) = Some rv /\ (bv < rv)%R /\
              Forall (fun v => (v <= rv)%R) vs /\
              forall (p : nat) (v : R),
                (p < Z.to_nat (r - i))%nat -> vs !! p = Some v -> (v < rv)%R).
Proof.
  revert i best bv. induction vs as [|v vs IH]; intros i best bv; cbn zeta;
    cbn [argmax_from].
  - left. split; [reflexivity | constructor].
  - cbn [s_ltb R_scalar]. unfold Rltb. destruct (Rlt_dec bv v) as [Hlt | Hge].
    + right. destruct (IH (i + 1) i v) as [[Hr Hall] | (rv & Hi & Hnth & Hv & Hall & Hbefore)].
      * exists v. rewrite Hr, Z.sub_diag. repeat split.
        -- lia.
        -- exact Hlt.
        -- constructor; [lra | exact Hall].
        -- intros p w Hp. cbn in Hp. lia.
      * exists rv. split; [lia|]. split.
        { replace (Z.to_nat (argmax_from (i + 1) i v vs - i))
            with (S (Z.to_nat (argmax_from (i + 1) i v vs - (i + 1)))) by lia.
          exact Hnth. }
        split; [lra|]. split; [constructor; [lra | exact Hall]|].
        intros p w Hp Hw. destruct p as [|p]; cbn in Hw.
        -- injection Hw as <-. exact Hv.
        -- apply (Hbefore p w); [lia | exact Hw].
    + destruct (IH (i + 1) best bv) as [[Hr Hall] | (rv & Hi & Hnth & Hv & Hall & Hbefore)].
      * left. split; [exact Hr | constructor; [lra | exact Hall]].
      * right. exists rv. split; [lia|]. split.
        { replace (Z.to_nat (argmax_from (i + 1) best bv vs - i))
            with (S (Z.to_nat (argmax_from (i + 1) best bv vs - (i + 1)))) by lia.
          exact Hnth. }
        split; [exact Hv|]. split; [constructor; [lra | exact Hall]|].
        intros p w Hp Hw. destruct p as [|p]; cbn in Hw.
        -- injection Hw as <-. lra.
        -- apply (Hbefore p w); [lia | exact Hw].
Qed.

Lemma lookup_map_seqZ {A : Type} (f : Z -> A) (n : Z) (p : nat) :
  Z.of_nat p < n -> map f (seqZ 0 n) !! p = Some (f (Z.of_nat p)).
Proof.
  intros Hp. change (map f (seqZ 0 n)) with (f <$> seqZ 0 n).
  rewrite list_lookup_fmap, lookup_seqZ_lt by lia. reflexivity.
Qed.

(** The arg-max over [f 0 .. f (n-1)]: an index of the range whose value
    none exceeds and which every earlier value lies strictly below. *)
Lemma argmax_list_seqZ (f : Z -> R) (n : Z) :
  1 <= n ->
  let r := argmax_list (map f (seqZ 0 n)) in
  0 <= r < n /\
  (forall c, 0 <= c < n -> (f c <= f r)%R) /\
  (forall c, 0 <= c < r -> (f c < f r)%R).
Proof.
  intros Hn. cbn zeta. rewrite seqZ_cons by lia. cbn [map argmax_list].
  set (vs := map f (seqZ (Z.succ 0) (Z.pred n))).
  assert (Hlen : Z.of_nat (length vs) = n - 1).
  { unfold vs. rewrite length_map, length_seqZ. lia. }
  assert (Hvs : forall p : nat, Z.of_nat p < n - 1 ->
                                vs !! p = Some (f (Z.of_nat p + 1))).
  { intros p Hp. unfold vs. change (map f ?l) with (f <$> l).
    rewrite list_lookup_fmap, lookup_seqZ_lt by lia. cbn. f_equal. f_equal. lia. }
  assert (Hall : forall rv, Forall (fun v => (v <= rv)%R) vs ->
                            forall c, 1 <= c < n -> (f c <= rv)%R).
  { intros rv HF c Hc. rewrite Forall_lookup in HF.
    specialize (HF (Z.to_nat (c - 1)) (f c)). apply HF.
    rewrite Hvs by lia. f_equal. f_equal. lia. }
  destruct (argmax_from_first vs 1 0 (f 0)) as [[Hr HF] | (rv & Hi & Hnth & Hv & HF & Hbefore)].
  - rewrite Hr. split; [lia|]. split; [|intros c Hc; lia].
    intros c Hc. destruct (Z.eq_dec c 0) as [-> | Hc0]; [lra|].
    apply (Hall (f 0) HF). lia.
  - set (r := argmax_from 1 0 (f 0) vs) in *.
    assert (Hrn : r < n).
    { apply lookup_lt_Some in Hnth. lia. }
    assert (Hrv : rv = f r).
    { rewrite Hvs in Hnth by lia. injection Hnth as <-. f_equal. lia. }
    subst rv. split; [lia|]. split.
    + intros c Hc. destruct (Z.eq_dec c 0) as [-> | Hc0]; [lra|].
      apply (Hall (f r) HF). lia.
    + intros c Hc. destruct (Z.eq_dec c 0) as [-> | Hc0]; [exact Hv|].
      apply (Hbefore (Z.to_nat (c - 1)) (f c)); [lia|].
      rewrite Hvs by lia. f_equal. f_equal. lia.
Qed.

(** X6: [torch.argmax(pred, dim=0)] raises when [pred] has no channel;
    otherwise the mask has the height and width of [pred] and holds at each
    pixel a channel index whose value no channel exceeds, the first such
    index when several channels tie (in real arithmetic). *)
Theorem torch_argmax_dim0_first_maximum (pred : Array3 R) (C Hh Ww : Z) :
  shape3 pred = (C, Hh, Ww) ->
  (C < 1 -> torch_argmax_dim0 pred = Raise IndexError_dim) /\
  (1 <= C ->
   exists mask,
     torch_argmax_dim0 pred = Ok mask /\ shape2 mask = (Hh, Ww) /\
     forall i j : Z,
       0 <= item2 mask i j < C /\
       (forall c, 0 <= c < C -> (item3 pred c i j <= item3 pred (item2 mask i j) i j)%R) /\
       (forall c, 0 <= c < item2 mask i j ->
                  (item3 pred c i j < item3 pred (item2 mask i j) i j)%R)).
Proof.
  intros Hs. unfold torch_argmax_dim0. rewrite Hs. split.
  - intros Hc. destruct (C <? 1) eqn:E; [reflexivity | lia].
  - intros Hc. destruct (C <? 1) eqn:E; [lia|].
    eexists. split; [reflexivity|]. split; [reflexivity|].
    intros i j. cbn [item2].
    exact (argmax_list_seqZ (fun c => item3 pred c i j) C Hc).
Qed.

Lemma torch_argmax_dim0_first_maximum_witness :
  exists mask,
    torch_argmax_dim0 (mkArray3 (2, 1, 1) (fun c _ _ => IZR c)) = Ok mask /\
    shape2 mask = (1, 1) /\ 0 <= item2 mask 0 0 < 2.
Proof.
  destruct (torch_argmax_dim0_first_maximum
              (mkArray3 (2, 1, 1) (fun c _ _ => IZR c)) 2 1 1 eq_refl) as [_ Hok].
  destruct (Hok ltac:(lia)) as (mask & Hm & Hsh & Hbody).
  exists mask. split; [exact Hm|]. split; [exact Hsh | apply Hbody].
Defined.

(** ** Activations kept for the skip connections *)

Lemma unet_block_apply_nonneg (st : state_dict R) training prefix cin f name
    (x y : Tensor R) :
  module_apply st training prefix (unet_block cin f name) x = Ok y ->
  forall n c i j : Z, (0 <= data y n c i j)%R.
Proof.
  unfold unet_block. intros Hb.
  do 5 (rewrite sequential_apply_cons in Hb;
        apply bind_Ok in Hb as (? & _ & Hb)).
  rewrite sequential_apply_cons in Hb. apply bind_Ok in Hb as (z & Hz & Hb).
  cbn in Hb. injection Hb as <-. cbn in Hz. injection Hz as <-.
  intros n c i j. cbn [data]. unfold relu_data. apply Rmax_r.
Qed.

(** X7: every block of the network ends in a ReLU, so each activation kept
    for a skip connection, the bottleneck and each decoder output is
    non-negative everywhere (in real arithmetic). *)
Theorem block_outputs_nonnegative (st : state_dict R) (training : bool)
    (cin cout feat : option Z) (x : Tensor R) (fr : Frame (Tensor R)) :
  forward_frame st training (UNet_init cin cout feat) x = Ok fr ->
  forall t : Tensor R,
    In t [f_enc1 fr; f_enc2 fr; f_enc3 fr; f_enc4 fr; f_bottleneck fr;
          f_dec4 fr; f_dec3 fr; f_dec2 fr; f_dec1 fr] ->
    forall n c i j : Z, (0 <= data t n c i j)%R.
Proof.
  intros Hfr. apply forward_frame_steps in Hfr. unfold frame_steps in Hfr.
  cbn [UNet_init encoder1 encoder2 encoder3 encoder4 bottleneck decoder4 decoder3
       decoder2 decoder1] in Hfr.
  destruct Hfr as (H1 & (p1 & _ & H2) & (p2 & _ & H3) & (p3 & _ & H4)
                   & (p4 & _ & H5) & _ & _ & Hd4 & _ & _ & Hd3 & _ & _ & Hd2
                   & _ & _ & Hd1 & _).
  intros t Ht. cbn [In] in Ht.
  repeat (destruct Ht as [<- | Ht];
          [eapply unet_block_apply_nonneg; eassumption|]).
  contradiction.
Qed.

Lemma block_outputs_nonnegative_witness :
  exists fr,
    forward_frame (V := R) (fun _ _ => 0%R) false unet
      (mkTensor (mkSize 1 1 16 16) (fun _ _ _ _ => 0%R)) = Ok fr /\
    forall n c i j : Z, (0 <= data (f_enc4 fr) n c i j)%R.
Proof.
  pose proof (forward_frame_returns (V := R) (fun _ _ => 0%R) false (Some 1) (Some 2)
                None 1 1 1 (mkTensor (mkSize 1 1 16 16) (fun _ _ _ _ => 0%R))
                ltac:(lia) ltac:(lia) ltac:(lia) (or_introl eq_refl) eq_refl)
    as (fr & Hfr).
  exists fr. split; [exact Hfr|].
  apply (block_outputs_nonnegative (fun _ _ => 0%R) false (Some 1) (Some 2) None
           _ fr Hfr).
  cbn [In]. tauto.
Defined.

(** ** Outcomes of the slice normalisation *)

(** X8: the normalisation raises an IndexError for a slice index outside the
    depth of the volume (on either side, a negative index counting from the
    end), a ValueError for a slice without voxels, and otherwise returns a
    slice of the height and width of the volume. *)
Theorem normalize_slice_outcome (vol : Array3 spec_float) (X0 Y0 D k : Z) :
  shape3 vol = (X0, Y0, D) -> 0 <= X0 -> 0 <= Y0 -> 0 <= D ->
  (k < - D \/ D <= k -> normalize_slice vol k = Raise IndexError_index) /\
  (- D <= k < D -> X0 = 0 \/ Y0 = 0 ->
   normalize_slice vol k = Raise ValueError_zero_size) /\
  (- D <= k < D -> 1 <= X0 -> 1 <= Y0 ->
   exists slc, normalize_slice vol k = Ok slc /\ shape2 slc = (X0, Y0)).
Proof.
  intros Hs HX HY HD. unfold normalize_slice. split; [|split].
  - intros Hk. now rewrite (slice_z_outside vol X0 Y0 D k Hs HD Hk).
  - intros Hk H0. rewrite (slice_z_wrap vol X0 Y0 D k Hs Hk).
    cbn [mbind result_bind]. unfold np_max.
    erewrite elements2_empty; [reflexivity | reflexivity | lia].
  - intros Hk HX1 HY1. rewrite (slice_z_wrap vol X0 Y0 D k Hs Hk).
    cbn [mbind result_bind].
    destruct (elements2_nonempty
                (mkArray2 (X0, Y0)
                   (fun x y => item3 vol x y (if k <? 0 then k + D else k))) X0 Y0)
      as (l & Hl); [reflexivity | assumption | assumption |].
    unfold np_max. rewrite Hl. cbn [mbind result_bind mret result_ret].
    eexists. split; reflexivity.
Qed.

Lemma normalize_slice_outcome_witness :
  normalize_slice small_volume 3 = Raise IndexError_index /\
  exists slc, normalize_slice small_volume (-1) = Ok slc /\ shape2 slc = (16, 16).
Proof.
  destruct (normalize_slice_outcome small_volume 16 16 3 3 eq_refl
              ltac:(lia) ltac:(lia) ltac:(lia)) as (Hout & _ & _).
  destruct (normalize_slice_outcome small_volume 16 16 3 (-1) eq_refl
              ltac:(lia) ltac:(lia) ltac:(lia)) as (_ & _ & Hin).
  split; [apply Hout; lia | apply Hin; lia].
Defined.

(** X9: one NaN voxel in a slice makes the maximum NaN, and with it every
    element of the normalised slice; nothing is raised. *)
Theorem nan_voxel_poisons_slice (vol : Array3 spec_float) (X0 Y0 D k x0 y0 : Z) :
  shape3 vol = (X0, Y0, D) -> 0 <= k < D ->
  0 <= x0 < X0 -> 0 <= y0 < Y0 ->
  item3 vol x0 y0 k = S754_nan ->
  exists slc, normalize_slice vol k = Ok slc /\ shape2 slc = (X0, Y0) /\
              forall x y, item2 slc x y = S754_nan.
Proof.
  intros Hs Hk Hx Hy Hnan. unfold normalize_slice.
  rewrite (slice_z_in_range vol X0 Y0 D k Hs Hk). cbn [mbind result_bind].
  set (a := mkArray2 (X0, Y0) (fun x y => item3 vol x y k)).
  assert (Hin : S754_nan ∈ elements2 a).
  { rewrite <- Hnan. exact (elements2_elem_of a X0 Y0 x0 y0 eq_refl Hx Hy). }
  assert (Hmax : np_max a = Ok S754_nan).
  { unfold np_max. destruct (elements2 a) as [|v l]; [inversion Hin|].
    f_equal. apply elem_of_cons in Hin as [<- | Hin].
    - apply foldl_np_maximum_nan.
    - now apply foldl_np_maximum_nan_in. }
  rewrite Hmax. cbn [mbind result_bind mret result_ret].
  eexists. split; [reflexivity|]. split; [reflexivity|].
  intros x y. cbn [item2 astype_single]. apply single_div_nan.
Qed.

Lemma nan_voxel_poisons_slice_witness :
  exists slc,
    normalize_slice
      (mkArray3 (1, 2, 1) (fun _ y _ => if y =? 0 then double_of_Z 7 else S754_nan)) 0
    = Ok slc /\
    item2 slc 0 0 = S754_nan.
Proof.
  destruct (nan_voxel_poisons_slice
              (mkArray3 (1, 2, 1) (fun _ y _ => if y =? 0 then double_of_Z 7 else S754_nan))
              1 2 1 0 0 1 eq_refl ltac:(lia) ltac:(lia) ltac:(lia) eq_refl)
    as (slc & Hslc & _ & Hnan).
  exists slc. split; [exact Hslc | apply Hnan].
Defined.

(** ** What the training loop needs and what it reads *)

Section TrainingNeeds.
Context {V : Type} (of_float : spec_float -> V).
Context {World Y L : Type}.
Variable extract_label : Array3 spec_float -> Z -> result Y.
Variable zero_grad : World -> World.
Variable unet_call : World -> Tensor V -> result (Tensor V * World).
Variable loss_call : Tensor V -> Y -> result L.
Variable backward : World -> L -> World.
Variable optimizer_step : World -> World.

Abbreviation step_on vol lbl :=
  (train_step of_float extract_label zero_grad unet_call loss_call backward
     optimizer_step vol lbl).
Abbreviation loop_on vol lbl :=
  (training_loop of_float extract_label zero_grad unet_call loss_call backward
     optimizer_step vol lbl).

(** X10: on a volume of fewer than 15 slices the training loop never
    completes: it raises in the first epoch, and the exception is the
    IndexError of the first missing slice when the iterations before it
    return. *)
Theorem training_loop_needs_fifteen_slices (training_volume training_label : Array3 spec_float)
    (X0 Y0 D : Z) (env : Env V World Y L) :
  shape3 training_volume = (X0, Y0, D) -> 0 <= D < 15 ->
  (exists e, loop_on training_volume training_label env = Raise e) /\
  (forall env',
     for_each (step_on training_volume training_label) (seqZ 0 D) env = Ok env' ->
     loop_on training_volume training_label env = Raise IndexError_index).
Proof.
  intros Hs HD.
  assert (Hstep : forall env0, step_on training_volume training_label env0 D
                               = Raise IndexError_index).
  { intros env0. unfold train_step, normalize_slice.
    rewrite (slice_z_out_of_range training_volume X0 Y0 D D Hs) by lia. reflexivity. }
  assert (Hinner : for_each (step_on training_volume training_label) (seqZ 0 15) env
                   = for_each (step_on training_volume training_label) (seqZ 0 D) env
                       ≫= fun _ => Raise IndexError_index).
  { replace 15 with (D + (15 - D)) at 1 by lia.
    rewrite seqZ_app, for_each_app by lia.
    destruct (for_each (step_on training_volume training_label) (seqZ 0 D) env)
      as [env'|e]; cbn [mbind result_bind]; [|reflexivity].
    rewrite (seqZ_cons (0 + D)) by lia. cbn [for_each].
    replace (0 + D) with D by lia. now rewrite Hstep. }
  assert (Hloop : loop_on training_volume training_label env
                  = for_each (step_on training_volume training_label) (seqZ 0 D) env
                      ≫= fun _ => Raise IndexError_index).
  { unfold training_loop. rewrite (seqZ_cons 0 10) by lia. cbn [for_each].
    rewrite Hinner.
    destruct (for_each (step_on training_volume training_label) (seqZ 0 D) env);
      reflexivity. }
  split.
  - rewrite Hloop.
    destruct (for_each (step_on training_volume training_label) (seqZ 0 D) env)
      as [env'|e]; cbn [mbind result_bind]; eauto.
  - intros env' Henv. now rewrite Hloop, Henv.
Qed.

(** X11: the training loop reads the intensity volume at the slices 0..14
    only: two volumes of the same shape that agree there give the same run. *)
Theorem training_loop_reads_first_fifteen_slices
    (volume1 volume2 training_label : Array3 spec_float) (env : Env V World Y L) :
  shape3 volume1 = shape3 volume2 ->
  (forall x y k, 0 <= k < 15 -> item3 volume1 x y k = item3 volume2 x y k) ->
  loop_on volume1 training_label env = loop_on volume2 training_label env.
Proof.
  intros Hs Hag.
  assert (Hnorm : forall k, 0 <= k < 15 ->
                            normalize_slice volume1 k = normalize_slice volume2 k).
  { intros k Hk. unfold normalize_slice, slice_z. rewrite Hs.
    destruct (shape3 volume2) as [[X0 Y0] D].
    destruct (k <? 0) eqn:E; [lia|].
    destruct ((0 <=? k) && (k <? D)); [|reflexivity].
    replace (fun x y => item3 volume1 x y k) with (fun x y => item3 volume2 x y k);
      [reflexivity|].
    extensionality x. extensionality y. symmetry. now apply Hag. }
  assert (Hstep : forall env0 k, k ∈ seqZ 0 15 ->
                                 step_on volume1 training_label env0 k
                                 = step_on volume2 training_label env0 k).
  { intros env0 k Hk. apply elem_of_seqZ in Hk. unfold train_step.
    now rewrite Hnorm by lia. }
  unfold training_loop. apply for_each_ext. intros env0 epoch _.
  now rewrite (for_each_ext _ _ _ env0 Hstep).
Qed.

End TrainingNeeds.

Lemma training_loop_needs_fifteen_slices_witness :
  exists e,
    training_loop (fun v => v) toy_label (fun w => w) toy_unet toy_loss toy_backward
      Z.succ small_volume small_volume toy_env = Raise e.
Proof.
  exact (proj1 (training_loop_needs_fifteen_slices (fun v => v) toy_label (fun w => w)
                  toy_unet toy_loss toy_backward Z.succ small_volume small_volume
                  16 16 3 toy_env eq_refl ltac:(lia))).
Defined.

Lemma training_loop_reads_first_fifteen_slices_witness :
  training_loop (fun v => v) toy_label (fun w => w) toy_unet toy_loss toy_backward
    Z.succ (mkArray3 (1, 1, 20) (fun _ _ _ => double_of_Z 1)) ones_volume toy_env
  = training_loop (fun v => v) toy_label (fun w => w) toy_unet toy_loss toy_backward
      Z.succ
      (mkArray3 (1, 1, 20)
         (fun _ _ k => if k <? 15 then double_of_Z 1 else double_of_Z 9))
      ones_volume toy_env.
Proof.
  apply (training_loop_reads_first_fifteen_slices (fun v => v) toy_label (fun w => w)
           toy_unet toy_loss toy_backward Z.succ).
  - reflexivity.
  - intros x y k Hk. cbn [item3].
    destruct (k <? 15) eqn:E; [reflexivity | lia].
Defined.

(** ** Files around the save cell *)

Section NiftiFiles.
Context {D E : Type}.

(** X12: the save cell returns exactly when the input image exists, and
    raises FileNotFoundError otherwise; when it returns, every file other
    than "data/out.nii.gz" is as before, whether or not an output file
    existed. *)
Theorem save_cell_touches_only_output (mask3d : D) (fs : gmap string (Nifti1Image D E)) :
  (fs !! "data/spleen1_img.nii.gz" = None ->
   save_cell mask3d fs = Raise FileNotFoundError) /\
  (forall fs', save_cell mask3d fs = Ok fs' ->
     is_Some (fs !! "data/spleen1_img.nii.gz") /\
     forall path, path <> "data/out.nii.gz" -> fs' !! path = fs !! path).
Proof.
  unfold save_cell, nib_load, nib_save. split.
  - intros Hnone. now rewrite Hnone.
  - intros fs'. destruct (fs !! "data/spleen1_img.nii.gz") as [org|] eqn:Hsrc;
      [|discriminate].
    cbn. intros [= <-]. split; [eauto|].
    intros path Hpath. now rewrite lookup_insert_ne by congruence.
Qed.

(** X13: running the save cell again changes nothing, and after two runs
    with different masks the files are those of the last run alone. *)
Theorem save_cell_last_run_wins (mask1 mask2 : D) (fs fs1 : gmap string (Nifti1Image D E)) :
  save_cell mask1 fs = Ok fs1 ->
  save_cell mask1 fs1 = Ok fs1 /\
  save_cell mask2 fs1 = save_cell mask2 fs.
Proof.
  unfold save_cell, nib_load, nib_save.
  destruct (fs !! "data/spleen1_img.nii.gz") as [org|] eqn:Hsrc; [|discriminate].
  cbn. intros [= <-].
  rewrite lookup_insert_ne by discriminate. rewrite Hsrc. cbn.
  split; f_equal; apply insert_insert_eq.
Qed.

End NiftiFiles.

Lemma sheared_image_saved :
  save_cell tt (<["data/spleen1_img.nii.gz" := sheared_image]> ∅)
  = Ok (<["data/out.nii.gz" := mkNifti1Image tt (affine sheared_image)]>
          (<["data/spleen1_img.nii.gz" := sheared_image]> ∅)).
Proof. unfold save_cell, nib_load. now rewrite lookup_insert_eq. Qed.

Lemma save_cell_touches_only_output_witness :
  exists fs',
    save_cell tt (<["data/spleen1_img.nii.gz" := sheared_image]> ∅) = Ok fs' /\
    fs' !! "data/spleen1_label.nii.gz" = None.
Proof.
  eexists. split; [exact sheared_image_saved|].
  destruct (save_cell_touches_only_output tt
              (<["data/spleen1_img.nii.gz" := sheared_image]> ∅)) as [_ Hframe].
  destruct (Hframe _ sheared_image_saved) as [_ Hother].
  rewrite Hother by discriminate. now rewrite lookup_insert_ne by discriminate.
Defined.

Lemma save_cell_last_run_wins_witness :
  exists fs1,
    save_cell tt (<["data/spleen1_img.nii.gz" := sheared_image]> ∅) = Ok fs1 /\
    save_cell tt fs1 = Ok fs1.
Proof.
  eexists. split; [exact sheared_image_saved|].
  exact (proj1 (save_cell_last_run_wins tt tt _ _ sheared_image_saved)).
Defined.

(** ** Names and number of the parameters *)

Lemma parameter_names_fixed (cin cout feat : option Z) :
  map fst (UNet_parameters (UNet_init cin cout feat)) = map fst (UNet_parameters unet).
Proof. reflexivity. Qed.

(** X14: for non-negative constructor arguments (the constructor raises on a
    negative one), the network registers 64 parameter tensors under pairwise
    distinct names. *)
Theorem parameter_names_distinct (cin cout feat : option Z) :
  0 <= default 1 cin -> 0 <= default 1 cout -> 0 <= default 32 feat ->
  length (UNet_parameters (UNet_init cin cout feat)) = 64%nat /\
  NoDup (map fst (UNet_parameters (UNet_init cin cout feat))).
Proof.
  intros _ _ _. split; [reflexivity|].
  rewrite parameter_names_fixed.
  apply (bool_decide_unpack (NoDup (map fst (UNet_parameters unet)))).
  vm_compute. reflexivity.
Qed.

Lemma parameter_names_distinct_witness :
  length (UNet_parameters (UNet_init (Some 3) None (Some 8))) = 64%nat /\
  NoDup (map fst (UNet_parameters (UNet_init (Some 3) None (Some 8)))).
Proof.
  apply (parameter_names_distinct (Some 3) None (Some 8)); cbn; lia.
Defined.

(** X15: for non-negative constructor arguments, the number of trainable
    parameters is a polynomial in the three arguments:
    7574 F^2 + 9 C_in F + 199 F + F C_out + C_out. *)
Theorem parameter_count_polynomial (cin cout feat : option Z) :
  0 <= default 1 cin -> 0 <= default 1 cout -> 0 <= default 32 feat ->
  let ci := default 1 cin in
  let co := default 1 cout in
  let F := default 32 feat in
  count_parameters (UNet_init cin cout feat)
  = 7574 * F * F + 9 * ci * F + 199 * F + F * co + co.
Proof. intros _ _ _. cbn zeta. unfold count_parameters, numel. cbn. ring. Qed.

Lemma parameter_count_polynomial_witness :
  count_parameters (UNet_init (Some 3) (Some 4) (Some 8)) = 486580.
Proof.
  exact (parameter_count_polynomial (Some 3) (Some 4) (Some 8)
           ltac:(cbn; lia) ltac:(cbn; lia) ltac:(cbn; lia)).
Defined.
